(** * wp-4col: the four-column layout engine of [src/app/page.tsx]

    A shallow embedding of the two state transitions of the [Home]
    component: the reconciliation updater run by the [useEffect] hook when a
    new list of posts arrives, and the updater run by [handleDragEnd] when a
    drag gesture completes.  Both are functions passed to [setColumns]; they
    receive the previous columns and return the next ones.

    Conventions of the embedding:
    - JavaScript arrays are lists, read with [!!] and updated with [<[i:=x]>];
      an access [a[i].posts] on a missing element raises a [TypeError], which
      is the [None] of the option monad;
    - [findIndex] returns [None] where JavaScript returns [-1];
    - [new Set(...)] is a [gset string], [.has] is membership;
    - a post identifier is the decimal rendering of the numeric [id] field
      ([post.id.toString()]), column identifiers are the template strings
      built by [createEmptyColumns]. *)

From Stdlib Require Import Ascii.
From stdpp Require Import gmap strings list pretty.

(** ** Data model *)

Definition COLUMN_COUNT : nat := 4.

(** One entry of [_embedded["wp:featuredmedia"]]. *)
Record FeaturedMedia := {
  source_url : option string;
  alt_text : option string
}.

(** [type WordPressPost]; [post_id] is the field [id], [title] and [excerpt]
    hold the [rendered] string, [embedded] the optional featured-media
    array. *)
Record WordPressPost := {
  post_id : Z;
  link : string;
  title : string;
  excerpt : string;
  date : string;
  embedded : option (list FeaturedMedia)
}.

(** [type PostColumn]; [column_id] is the field [id]. *)
Record PostColumn := {
  column_id : string;
  label : string;
  posts : list WordPressPost
}.

(** [const getPostId = (post) => post.id.toString()].  The numeric [id] is
    taken as an integer, as the identifiers of the feed are; on the integers
    that a JavaScript number holds exactly (below 2^53 in absolute value)
    [toString] is the decimal rendering used here.  The general statements
    below use of the rendering only that it never starts with the letter
    [c] of the column identifiers; the scenarios use small identifiers. *)
Definition getPostId (post : WordPressPost) : string := pretty (post_id post).

(** [{ ...column, posts: newPosts }] *)
Definition with_posts (column : PostColumn) (newPosts : list WordPressPost)
  : PostColumn :=
  {| column_id := column_id column; label := label column; posts := newPosts |}.

(** [Array.from({ length: COLUMN_COUNT }, (_, index) => ...)] *)
Definition createEmptyColumns : list PostColumn :=
  (λ index : nat,
     {| column_id := "column-" +:+ pretty index;
        label := "Column " +:+ pretty (index + 1);
        posts := [] |}) <$> seq 0 COLUMN_COUNT.

(** ** The array methods used by the component *)

Section array.
Context {A : Type}.

(** [l.findIndex(P)], with [None] for [-1]. *)
Definition findIndex (P : A → Prop) `{!∀ x, Decision (P x)} (l : list A)
  : option nat := fst <$> list_find P l.

(** [l.some(P)] *)
Definition some (P : A → Prop) (l : list A) : Prop := Exists P l.

Global Instance some_dec (P : A → Prop) `{!∀ x, Decision (P x)} l :
  Decision (some P l).
Proof. unfold some. apply _. Defined.

(** [l.splice(i, 1)]: the array that is left. *)
Definition splice_remove (i : nat) (l : list A) : list A := delete i l.

(** [l.splice(i, 0, x)]: a start index beyond the end is clamped. *)
Definition splice_insert (i : nat) (x : A) (l : list A) : list A :=
  take i l ++ x :: drop i l.

(** [l.reduce((acc, x, idx) => f acc x idx, init)] for a callback that may
    raise. *)
Fixpoint reduce_from {B} (f : B → A → nat → option B) (idx : nat)
    (l : list A) (acc : B) : option B :=
  match l with
  | [] => Some acc
  | x :: l' => acc' ← f acc x idx; reduce_from f (S idx) l' acc'
  end.

Definition reduce {B} (f : B → A → nat → option B) (l : list A) (init : B)
  : option B := reduce_from f 0 l init.

(** [l.forEach(x => ...)] for a callback that mutates a store [S] and may
    raise. *)
Fixpoint forEach {S} (f : S → A → option S) (l : list A) (st : S)
  : option S :=
  match l with
  | [] => Some st
  | x :: l' => st' ← f st x; forEach f l' st'
  end.
End array.

(** ** Reconciliation: the updater of the [useEffect] hook *)

(** [new Set(data.map((post) => getPostId(post)))] *)
Definition incomingIds (data : list WordPressPost) : gset string :=
  list_to_set (getPostId <$> data).

(** [prevColumns.map((column) => ({ ...column, posts: column.posts.filter(
    (post) => incomingIds.has(getPostId(post))) }))] *)
Definition filtered (prevColumns : list PostColumn)
    (data : list WordPressPost) : list PostColumn :=
  (λ column,
     with_posts column
       (filter (λ post, getPostId post ∈ incomingIds data) (posts column)))
  <$> prevColumns.

(** [new Set(filtered.flatMap((column) => column.posts.map(getPostId)))] *)
Definition existingIds (columns : list PostColumn) : gset string :=
  list_to_set (columns ≫= λ column, getPostId <$> posts column).

(** [data.filter((post) => !existingIds.has(getPostId(post)))] *)
Definition newPosts (prevColumns : list PostColumn)
    (data : list WordPressPost) : list WordPressPost :=
  filter (λ post, getPostId post ∉ existingIds (filtered prevColumns data))
    data.

(** The [reduce] that picks the column to push to:
    [(minIndex, column, idx) =>
       column.posts.length < nextColumns[minIndex].posts.length
         ? idx : minIndex], started at [0]. *)
Definition targetIndex (nextColumns : list PostColumn) : option nat :=
  reduce
    (λ minIndex column idx,
       current ← nextColumns !! minIndex;
       Some (if decide (length (posts column) < length (posts current))
             then idx else minIndex))
    nextColumns 0.

(** The body of [newPosts.forEach]:
    [nextColumns[targetIndex].posts.push(post)]. *)
Definition push_post (nextColumns : list PostColumn) (post : WordPressPost)
  : option (list PostColumn) :=
  t ← targetIndex nextColumns;
  column ← nextColumns !! t;
  Some (<[t := with_posts column (posts column ++ [post])]> nextColumns).

(** The function passed to [setColumns] by the effect. *)
Definition reconcile (prevColumns : list PostColumn)
    (data : list WordPressPost) : option (list PostColumn) :=
  let filtered := filtered prevColumns data in
  let newPosts := newPosts prevColumns data in
  if decide (length newPosts = 0) then Some filtered
  else
    let nextColumns :=
      (λ column, with_posts column (posts column)) <$> filtered in
    forEach push_post newPosts nextColumns.

(** The effect itself: [if (!data) return;] leaves the state alone. *)
Definition onItemsFetched (prevColumns : list PostColumn)
    (data : option (list WordPressPost)) : option (list PostColumn) :=
  match data with
  | None => Some prevColumns
  | Some data => reconcile prevColumns data
  end.

(** ** Move application: the updater of [handleDragEnd] *)

(** What the updater hands back to [setColumns]: the very array it was given
    ([return prevColumns]) or a freshly built one ([return updatedColumns]). *)
Inductive SetColumns :=
  | KeepPrev
  | Replace (updatedColumns : list PostColumn).

Definition sourceColumnIndex (prevColumns : list PostColumn)
    (activeId : string) : option nat :=
  findIndex
    (λ column, some (λ post, getPostId post = activeId) (posts column))
    prevColumns.

Definition targetColumnIndex (prevColumns : list PostColumn)
    (overId : string) : option nat :=
  findIndex
    (λ column,
       column_id column = overId
       ∨ some (λ post, getPostId post = overId) (posts column))
    prevColumns.

(** [targetPostIndex >= 0 ? targetPostIndex : targetPosts.length] *)
Definition insertIndex (targetPosts : list WordPressPost) (overId : string)
  : nat :=
  match findIndex (λ post, getPostId post = overId) targetPosts with
  | Some targetPostIndex => targetPostIndex
  | None => length targetPosts
  end.

(** The function passed to [setColumns] by [handleDragEnd].  The store of the
    mutable [posts] arrays is [updatedColumns] itself: [sourcePosts] and
    [targetPosts] are the arrays at indices [s] and [t], the same array when
    [s = t], so [targetPosts] is read back after the removal. *)
Definition move_updater (prevColumns : list PostColumn)
    (activeId overId : string) : option SetColumns :=
  match sourceColumnIndex prevColumns activeId with
  | None => Some KeepPrev
  | Some s =>
    match targetColumnIndex prevColumns overId with
    | None => Some KeepPrev
    | Some t =>
      if decide (s = t ∧ overId = activeId) then Some KeepPrev
      else
        let updatedColumns :=
          (λ column, with_posts column (posts column)) <$> prevColumns in
        sourceColumn ← updatedColumns !! s;
        _ ← updatedColumns !! t;
        let sourcePosts := posts sourceColumn in
        match findIndex (λ post, getPostId post = activeId) sourcePosts with
        | None => Some KeepPrev
        | Some movingIndex =>
          match sourcePosts !! movingIndex with
          | None => Some KeepPrev
          | Some movingPost =>
            let updatedColumns :=
              <[s := with_posts sourceColumn
                       (splice_remove movingIndex sourcePosts)]>
                updatedColumns in
            targetColumn ← updatedColumns !! t;
            let targetPosts := posts targetColumn in
            if decide (s = t) then
              Some (Replace
                (<[t := with_posts targetColumn
                          (splice_insert (insertIndex targetPosts overId)
                             movingPost targetPosts)]> updatedColumns))
            else if decide (column_id targetColumn = overId) then
              Some (Replace
                (<[t := with_posts targetColumn (targetPosts ++ [movingPost])]>
                   updatedColumns))
            else
              Some (Replace
                (<[t := with_posts targetColumn
                          (splice_insert (insertIndex targetPosts overId)
                             movingPost targetPosts)]> updatedColumns))
          end
        end
    end
  end.

(** The state after [setColumns] has run the updater. *)
Definition commit (prevColumns : list PostColumn) (r : SetColumns)
  : list PostColumn :=
  match r with
  | KeepPrev => prevColumns
  | Replace updatedColumns => updatedColumns
  end.

Definition applyMove (prevColumns : list PostColumn)
    (activeId overId : string) : option (list PostColumn) :=
  commit prevColumns <$> move_updater prevColumns activeId overId.

(** [handleDragEnd]: [if (!over) return;] leaves the state alone. *)
Definition handleDragEnd (prevColumns : list PostColumn) (active : string)
    (over : option string) : option (list PostColumn) :=
  match over with
  | None => Some prevColumns
  | Some overId => applyMove prevColumns active overId
  end.

(** ** Observations on a layout *)

(** All posts of a layout, column after column. *)
Definition all_posts (columns : list PostColumn) : list WordPressPost :=
  columns ≫= posts.

(** All identifiers of a layout, column after column. *)
Definition layout_ids (columns : list PostColumn) : list string :=
  getPostId <$> all_posts columns.

(** The fixed part of a layout: identity and label of each column. *)
Definition structure (columns : list PostColumn) : list (string * string) :=
  (λ column, (column_id column, label column)) <$> columns.

(** How often an identifier occurs in a list of posts. *)
Definition occurrences (x : string) (l : list WordPressPost) : nat :=
  length (filter (λ post, getPostId post = x) l).

(** ** Predicates used in the statements *)

Implicit Types (columns prevColumns nextColumns : list PostColumn).
Implicit Types (column : PostColumn) (post : WordPressPost).
Implicit Types (data extra : list WordPressPost) (activeId overId : string).

(** [t] is the index of a column with the fewest posts, and the lowest such
    index. *)
Definition first_smallest columns (t : nat) : Prop :=
  ∃ column,
    columns !! t = Some column
    ∧ (∀ j c, columns !! j = Some c →
              length (posts column) ≤ length (posts c))
    ∧ (∀ j c, j < t → columns !! j = Some c →
              length (posts column) < length (posts c)).

(** [column'] is [column] with a subsequence of [added] appended. *)
Definition column_grown (added : list WordPressPost) column column' : Prop :=
  column_id column' = column_id column
  ∧ label column' = label column
  ∧ ∃ app, posts column' = posts column ++ app ∧ app `sublist_of` added.

(** Each column of [columns'] is the same column of [columns] grown by part of
    [added], and together the columns received all of [added]. *)
Definition grown_by (added : list WordPressPost) columns columns' : Prop :=
  Forall2 (column_grown added) columns columns'
  ∧ all_posts columns' ≡ₚ all_posts columns ++ added.

(** The columns after the dragged post has left column [s]. *)
Definition removed prevColumns (s : nat) sourceColumn (movingIndex : nat)
  : list PostColumn :=
  <[s := with_posts sourceColumn
           (splice_remove movingIndex (posts sourceColumn))]> prevColumns.

(** The posts of the target column after the drop, from the posts it holds
    once the dragged post has left its source column. *)
Definition dropped (s t : nat) targetColumn overId movingPost
  : list WordPressPost :=
  if decide (s ≠ t ∧ column_id targetColumn = overId)
  then posts targetColumn ++ [movingPost]
  else splice_insert (insertIndex (posts targetColumn) overId) movingPost
         (posts targetColumn).

(** The updater hands back the very columns it was given, which then are the
    state after the move. *)
Definition keeps prevColumns activeId overId : Prop :=
  move_updater prevColumns activeId overId = Some KeepPrev
  ∧ applyMove prevColumns activeId overId = Some prevColumns.

(** The columns of the layout are those made by [createEmptyColumns]. *)
Definition fixed_columns columns : Prop :=
  structure columns = structure createEmptyColumns.

(** ** Presentation helpers of the page *)

(** [const stripHtml = (html) => html.replace(/<[^>]*>?/gm, "")].  A match
    starts at a [<], runs over every character that is not [>] (line breaks
    included), and takes the [>] that follows if there is one; a match never
    fails once a [<] is found, and the replacement goes on after it.  So the
    scan is in one of two modes: outside a match characters are copied and a
    [<] opens a match, inside a match characters are dropped and a [>] closes
    it, as does the end of the string. *)
Fixpoint strip_from (inTag : bool) (html : string) : string :=
  match html with
  | EmptyString => EmptyString
  | String c rest =>
    if inTag then
      if decide (c = ">"%char) then strip_from false rest
      else strip_from true rest
    else
      if decide (c = "<"%char) then strip_from true rest
      else String c (strip_from false rest)
  end.

Definition stripHtml (html : string) : string := strip_from false html.

(** What [getFeaturedImage] returns when it finds an image. *)
Record FeaturedImage := {
  src : string;
  alt : string
}.

(** An optional string used as a condition: [undefined] and the empty string
    are falsy. *)
Definition truthy (value : option string) : option string :=
  match value with
  | Some text => if decide (text = "") then None else Some text
  | None => None
  end.

(** [const getFeaturedImage = (post) => ...]: [media] is
    [post._embedded?.["wp:featuredmedia"]?.[0]]; [null] is [None]. *)
Definition getFeaturedImage (post : WordPressPost) : option FeaturedImage :=
  match embedded post ≫= head with
  | None => None
  | Some media =>
    match truthy (source_url media) with
    | None => None
    | Some url =>
      Some {| src := url;
              alt := match truthy (alt_text media) with
                     | Some text => text
                     | None => stripHtml (title post)
                     end |}
    end
  end.

(** [const hasPosts = columns.some((column) => column.posts.length > 0)] *)
Definition hasPosts (columns : list PostColumn) : Prop :=
  some (λ column, 0 < length (posts column)) columns.

(** ** The component as a state machine *)

(** The two events that reach [setColumns]: the effect running on a new
    value of [data], and the end of a drag with its [active] identifier and
    its [over] target, if any. *)
Inductive Event :=
  | ItemsFetched (fetched : option (list WordPressPost))
  | DragEnd (active : string) (over : option string).

Definition step (columns : list PostColumn) (e : Event)
  : option (list PostColumn) :=
  match e with
  | ItemsFetched fetched => onItemsFetched columns fetched
  | DragEnd active over => handleDragEnd columns active over
  end.

(** The state after a sequence of events, from [columns]; the component
    starts from [createEmptyColumns]. *)
Definition run (events : list Event) (columns : list PostColumn)
  : option (list PostColumn) :=
  forEach step events columns.

(** The fetched list of the event, if it is one, has no identifier twice. *)
Definition fetched_distinct (e : Event) : Prop :=
  match e with
  | ItemsFetched (Some fetched) => NoDup (getPostId <$> fetched)
  | _ => True
  end.

Definition is_drag (e : Event) : Prop :=
  match e with
  | DragEnd _ _ => True
  | ItemsFetched _ => False
  end.

(** No column holds more than [d] posts more than another. *)
Definition spread_at_most (d : nat) (columns : list PostColumn) : Prop :=
  ∀ i j ci cj,
    columns !! i = Some ci → columns !! j = Some cj →
    length (posts ci) ≤ length (posts cj) + d.

(** The characters of a string. *)
Definition chars (text : string) : list ascii :=
  String.list_ascii_of_string text.

(** ** Test data *)

Definition mkPost (n : Z) : WordPressPost :=
  {| post_id := n; link := ""; title := ""; excerpt := ""; date := "";
     embedded := None |}.

(** A post with a link, to tell two posts with one identifier apart. *)
Definition mkPostAt (n : Z) (url : string) : WordPressPost :=
  {| post_id := n; link := url; title := ""; excerpt := ""; date := "";
     embedded := None |}.

(** The column that [createEmptyColumns] makes at [index], holding [l]. *)
Definition column_at (index : nat) (l : list WordPressPost) : PostColumn :=
  {| column_id := "column-" +:+ pretty index;
     label := "Column " +:+ pretty (index + 1);
     posts := l |}.

(** A layout over the columns of [createEmptyColumns] with the given posts. *)
Definition layout_of (content : list (list WordPressPost))
  : list PostColumn :=
  zip_with with_posts createEmptyColumns content.

(** ** The scenarios of the specification, evaluated *)

Example createEmptyColumns_ids :
  column_id <$> createEmptyColumns
  = ["column-0"; "column-1"; "column-2"; "column-3"].
Proof. vm_compute. reflexivity. Qed.

Example reconcile_five :
  reconcile createEmptyColumns (mkPost <$> [1; 2; 3; 4; 5]%Z)
  = Some (layout_of [[mkPost 1; mkPost 5]; [mkPost 2]; [mkPost 3]; [mkPost 4]]).
Proof. vm_compute. reflexivity. Qed.

Example applyMove_23 :
  applyMove (layout_of [[mkPost 1; mkPost 2]; [mkPost 3]; []; []]) "2" "3"
  = Some (layout_of [[mkPost 1]; [mkPost 2; mkPost 3]; []; []]).
Proof. vm_compute. reflexivity. Qed.

(** ** Facts about the array methods *)

Section array_facts.
Context {A : Type}.
Implicit Types (l pre suf : list A) (x : A) (P : A → Prop).

Lemma findIndex_Some P `{!∀ x, Decision (P x)} l i :
  findIndex P l = Some i ↔
  ∃ x, l !! i = Some x ∧ P x ∧ ∀ j y, l !! j = Some y → j < i → ¬ P y.
Proof.
  unfold findIndex. split.
  - destruct (list_find P l) as [[j x]|] eqn:Hfind; [|done].
    intros [= <-]. exists x. by apply (list_find_Some P l j x).
  - intros (x & Hx). apply (list_find_Some P l i x) in Hx. by rewrite Hx.
Qed.

Lemma findIndex_None P `{!∀ x, Decision (P x)} l :
  findIndex P l = None ↔ Forall (λ x, ¬ P x) l.
Proof.
  unfold findIndex. rewrite <-(list_find_None P l).
  by destruct (list_find P l) as [[j x]|].
Qed.

Lemma findIndex_is_Some P `{!∀ x, Decision (P x)} l :
  some P l → ∃ i x, findIndex P l = Some i ∧ l !! i = Some x ∧ P x.
Proof.
  intros Hsome. destruct (findIndex P l) as [i|] eqn:Hfind.
  - apply findIndex_Some in Hfind as (x & ? & ? & _). eauto.
  - apply findIndex_None in Hfind. unfold some in Hsome.
    apply Exists_exists in Hsome as (x & Hin & HP).
    rewrite Forall_forall in Hfind. by destruct (Hfind x Hin).
Qed.

(** The first match of [P] in [pre ++ x :: suf] when [pre] has none. *)
Lemma findIndex_middle P `{!∀ x, Decision (P x)} pre x suf :
  Forall (λ y, ¬ P y) pre → P x →
  findIndex P (pre ++ x :: suf) = Some (length pre).
Proof.
  intros Hpre Hx. apply findIndex_Some. exists x. split_and!.
  - by rewrite list_lookup_middle.
  - done.
  - intros j y Hj Hlt. rewrite lookup_app_l in Hj by done.
    rewrite Forall_forall in Hpre. apply Hpre.
    by eapply list_elem_of_lookup_2.
Qed.

Lemma splice_remove_middle pre x suf :
  splice_remove (length pre) (pre ++ x :: suf) = pre ++ suf.
Proof.
  unfold splice_remove.
  induction pre as [|y pre IH]; simpl; [done | by f_equal].
Qed.

Lemma splice_insert_middle pre suf x :
  splice_insert (length pre) x (pre ++ suf) = pre ++ x :: suf.
Proof.
  unfold splice_insert. by rewrite take_app_length, drop_app_length.
Qed.

Lemma splice_insert_end l x : splice_insert (length l) x l = l ++ [x].
Proof. unfold splice_insert. by rewrite firstn_all, drop_all. Qed.

Lemma splice_insert_Permutation i x l : splice_insert i x l ≡ₚ x :: l.
Proof.
  unfold splice_insert. rewrite <-Permutation_middle.
  by rewrite take_drop.
Qed.

Lemma splice_remove_Permutation i x l :
  l !! i = Some x → x :: splice_remove i l ≡ₚ l.
Proof. intros Hi. symmetry. by apply delete_Permutation. Qed.
End array_facts.

(** ** Facts about columns and layouts *)

Lemma with_posts_id column : with_posts column (posts column) = column.
Proof. by destruct column. Qed.

Lemma copy_columns columns :
  (λ column, with_posts column (posts column)) <$> columns = columns.
Proof.
  rewrite <-(list_fmap_id columns) at 2.
  apply list_fmap_ext. intros _ column _. apply with_posts_id.
Qed.

Lemma all_posts_split columns t column :
  columns !! t = Some column →
  all_posts columns
  = all_posts (take t columns) ++ posts column
    ++ all_posts (drop (S t) columns).
Proof.
  intros Ht. unfold all_posts.
  rewrite <-(take_drop_middle columns t column) at 1 by done.
  by rewrite bind_app, bind_cons.
Qed.

Lemma all_posts_insert columns t column column' :
  columns !! t = Some column →
  all_posts (<[t := column']> columns)
  = all_posts (take t columns) ++ posts column'
    ++ all_posts (drop (S t) columns).
Proof.
  intros Ht. unfold all_posts.
  rewrite insert_take_drop by (by eapply lookup_lt_Some).
  by rewrite bind_app, bind_cons.
Qed.

(** Replacing the posts of one column by a permutation of them extended by
    [extra] extends the posts of the layout by [extra]. *)
Lemma all_posts_insert_Permutation columns t column column' extra :
  columns !! t = Some column →
  posts column' ≡ₚ extra ++ posts column →
  all_posts (<[t := column']> columns) ≡ₚ extra ++ all_posts columns.
Proof.
  intros Ht Hp.
  rewrite (all_posts_insert _ _ _ _ Ht), (all_posts_split _ _ _ Ht), Hp.
  solve_Permutation.
Qed.

Lemma structure_insert columns t column column' :
  columns !! t = Some column →
  column_id column' = column_id column → label column' = label column →
  structure (<[t := column']> columns) = structure columns.
Proof.
  intros Ht Hid Hlabel. unfold structure.
  rewrite list_fmap_insert, Hid, Hlabel.
  apply list_insert_id. by rewrite list_lookup_fmap, Ht.
Qed.

Lemma structure_length columns columns' :
  structure columns' = structure columns → length columns' = length columns.
Proof.
  unfold structure. intros Heq.
  apply (f_equal length) in Heq. by rewrite !length_fmap in Heq.
Qed.

(** ** The balance heuristic *)

(** The loop invariant of the [reduce]: after the columns below [idx] have
    been visited, [m] is the first smallest of them. *)
Lemma reduce_from_first_smallest columns suf idx m cm :
  drop idx columns = suf →
  columns !! m = Some cm →
  (∀ j c, j < idx → columns !! j = Some c →
          length (posts cm) ≤ length (posts c)) →
  (∀ j c, j < m → columns !! j = Some c →
          length (posts cm) < length (posts c)) →
  ∃ t,
    reduce_from
      (λ minIndex column idx,
         current ← columns !! minIndex;
         Some (if decide (length (posts column) < length (posts current))
               then idx else minIndex))
      idx suf m = Some t
    ∧ first_smallest columns t.
Proof.
  revert idx m cm. induction suf as [|x suf IH]; intros idx m cm Hdrop Hm Hle Hlt.
  - exists m. split; [done|]. exists cm. split_and!; [done| |done].
    intros j c Hj. apply (Hle j c); [|done].
    apply lookup_lt_Some in Hj.
    apply (f_equal length) in Hdrop. rewrite length_drop in Hdrop.
    simpl in Hdrop. lia.
  - assert (columns !! idx = Some x) as Hidx.
    { by rewrite <-(Nat.add_0_r idx), <-lookup_drop, Hdrop. }
    assert (drop (S idx) columns = suf) as Hdrop'.
    { rewrite (drop_S _ _ _ Hidx) in Hdrop. by injection Hdrop. }
    simpl. rewrite Hm. simpl.
    destruct (decide (length (posts x) < length (posts cm))) as [Hsmaller|Hnot].
    + apply (IH (S idx) idx x); [done..| |].
      * intros j c Hj Hc. destruct (decide (j = idx)) as [->|].
        -- rewrite Hidx in Hc. by injection Hc as ->.
        -- specialize (Hle j c ltac:(lia) Hc). lia.
      * intros j c Hj Hc. specialize (Hle j c Hj Hc). lia.
    + apply (IH (S idx) m cm); [done..| |done].
      intros j c Hj Hc. destruct (decide (j = idx)) as [->|].
      * rewrite Hidx in Hc. injection Hc as ->. lia.
      * apply (Hle j c); [lia|done].
Qed.

Lemma targetIndex_first_smallest columns :
  columns ≠ [] →
  ∃ t, targetIndex columns = Some t ∧ first_smallest columns t.
Proof.
  intros Hne. destruct columns as [|c0 columns'] eqn:Heq; [done|].
  rewrite <-Heq. unfold targetIndex, reduce.
  apply (reduce_from_first_smallest columns columns 0 0 c0);
    [done|by rewrite Heq|lia..].
Qed.

Lemma first_smallest_unique columns t t' :
  first_smallest columns t → first_smallest columns t' → t = t'.
Proof.
  intros (c & Hc & Hle & Hlt) (c' & Hc' & Hle' & Hlt').
  destruct (Nat.lt_trichotomy t t') as [Hcmp|[->|Hcmp]]; [|done|].
  - specialize (Hlt' t c Hcmp Hc). specialize (Hle t' c' Hc'). lia.
  - specialize (Hlt t' c' Hcmp Hc'). specialize (Hle' t c Hc). lia.
Qed.

(** ** Pushing new posts *)

Lemma column_grown_refl added column : column_grown added column column.
Proof.
  split_and!; [done..|]. exists []. split; [by rewrite app_nil_r|].
  apply sublist_nil_l.
Qed.

Lemma column_grown_trans added1 added2 c c1 c2 :
  column_grown added1 c c1 → column_grown added2 c1 c2 →
  column_grown (added1 ++ added2) c c2.
Proof.
  intros (Hid1 & Hl1 & app1 & Hp1 & Hs1) (Hid2 & Hl2 & app2 & Hp2 & Hs2).
  split_and!; [congruence..|]. exists (app1 ++ app2). split.
  - by rewrite Hp2, Hp1, (assoc_L (++)).
  - by apply sublist_app.
Qed.

Lemma Forall2_column_grown_trans added1 added2 columns columns1 columns2 :
  Forall2 (column_grown added1) columns columns1 →
  Forall2 (column_grown added2) columns1 columns2 →
  Forall2 (column_grown (added1 ++ added2)) columns columns2.
Proof.
  intros H1. revert columns2.
  induction H1 as [|c c1 columns columns1 Hc _ IH]; intros columns2 H2.
  - inversion H2. constructor.
  - inversion H2 as [|? c2 ? columns2' Hc2 H2']; subst.
    constructor; [by eapply column_grown_trans|by apply IH].
Qed.

Lemma Forall2_column_grown_insert added columns t column column' :
  columns !! t = Some column → column_grown added column column' →
  Forall2 (column_grown added) columns (<[t := column']> columns).
Proof.
  intros Ht Hgrown. apply Forall2_same_length_lookup_2.
  - by rewrite length_insert.
  - intros i x y Hx Hy. apply list_lookup_insert_Some in Hy as [(-> & -> & _)|[_ Hy]].
    + rewrite Ht in Hx. by injection Hx as <-.
    + rewrite Hx in Hy. injection Hy as <-. apply column_grown_refl.
Qed.

Lemma grown_by_structure added columns columns' :
  grown_by added columns columns' → structure columns' = structure columns.
Proof.
  intros [Hall _]. unfold structure.
  induction Hall as [|c c' ?? (Hid & Hl & _) _ IH]; [done|].
  by rewrite !fmap_cons, Hid, Hl, IH.
Qed.

(** One iteration of the [forEach]: the post goes to the tail of the first
    smallest column. *)
Lemma push_post_Some columns post :
  columns ≠ [] →
  ∃ t column,
    first_smallest columns t ∧ columns !! t = Some column
    ∧ push_post columns post
      = Some (<[t := with_posts column (posts column ++ [post])]> columns).
Proof.
  intros Hne.
  destruct (targetIndex_first_smallest columns Hne) as (t & Ht & Hfirst).
  pose proof Hfirst as (column & Hcolumn & _).
  exists t, column. split_and!; [done..|].
  unfold push_post. rewrite Ht. simpl. by rewrite Hcolumn.
Qed.

Lemma push_post_grown columns post :
  columns ≠ [] →
  ∃ columns', push_post columns post = Some columns'
              ∧ grown_by [post] columns columns'.
Proof.
  intros Hne.
  destruct (push_post_Some columns post Hne) as (t & column & _ & Ht & ->).
  eexists. split; [done|]. split.
  - apply (Forall2_column_grown_insert _ _ _ column); [done|].
    split_and!; [done..|]. by exists [post].
  - rewrite (all_posts_insert_Permutation _ _ column _ [post] Ht).
    + solve_Permutation.
    + simpl. solve_Permutation.
Qed.

(** The whole [forEach]. *)
Lemma forEach_push_post_grown added columns :
  columns ≠ [] →
  ∃ columns', forEach push_post added columns = Some columns'
              ∧ grown_by added columns columns'.
Proof.
  revert columns. induction added as [|post added IH]; intros columns Hne.
  - exists columns. split; [done|]. split.
    + apply Forall2_same_length_lookup_2; [done|].
      intros i x y Hx Hy. rewrite Hx in Hy. injection Hy as <-.
      apply column_grown_refl.
    + by rewrite app_nil_r.
  - destruct (push_post_grown columns post Hne) as (columns1 & Hpush & H1 & Hp1).
    assert (columns1 ≠ []) as Hne1.
    { apply Forall2_length in H1. destruct columns, columns1; done. }
    destruct (IH columns1 Hne1) as (columns2 & Hrest & H2 & Hp2).
    exists columns2. simpl. rewrite Hpush. simpl. split; [done|]. split.
    + by apply (Forall2_column_grown_trans [post] added _ columns1).
    + rewrite Hp2, Hp1. solve_Permutation.
Qed.

(** On a layout without columns the first push fails: [nextColumns[0]] is
    [undefined]. *)
Lemma forEach_push_post_nil post added :
  forEach push_post (post :: added) [] = None.
Proof. done. Qed.

(** ** Facts about [filter] *)

Section filter_facts.
Context {A : Type}.
Implicit Types (l : list A) (P Q : A → Prop).

Lemma filter_all P `{!∀ x, Decision (P x)} l :
  (∀ x, x ∈ l → P x) → filter P l = l.
Proof.
  induction l as [|a l IH]; intros Hall; [done|].
  rewrite filter_cons_True by (apply Hall; by left).
  f_equal. apply IH. intros x Hx. apply Hall. by right.
Qed.

Lemma filter_none P `{!∀ x, Decision (P x)} l :
  (∀ x, x ∈ l → ¬ P x) → filter P l = [].
Proof.
  induction l as [|a l IH]; intros Hnone; [done|].
  rewrite filter_cons_False by (apply Hnone; by left).
  apply IH. intros x Hx. apply Hnone. by right.
Qed.
End filter_facts.

(** Filtering posts on a property of their identifier. *)
Lemma elem_of_ids_filter (P : WordPressPost → Prop)
    `{!∀ post, Decision (P post)} (Q : string → Prop)
    (l : list WordPressPost) x :
  (∀ post, P post ↔ Q (getPostId post)) →
  x ∈ getPostId <$> filter P l ↔ Q x ∧ x ∈ getPostId <$> l.
Proof.
  intros HPQ. rewrite !list_elem_of_fmap. split.
  - intros (post & -> & Hin). apply list_elem_of_filter in Hin as [HP Hin].
    split; [by apply HPQ|]. by exists post.
  - intros (HQ & post & -> & Hin). exists post. split; [done|].
    apply list_elem_of_filter. split; [by apply HPQ|done].
Qed.

(** ** Facts about the reconciliation *)

Lemma existingIds_layout_ids columns :
  existingIds columns = list_to_set (layout_ids columns).
Proof.
  unfold existingIds, layout_ids, all_posts. f_equal.
  induction columns as [|c columns IH]; [done|].
  by rewrite !bind_cons, fmap_app, IH.
Qed.

Lemma elem_of_existingIds columns x :
  x ∈ existingIds columns ↔ x ∈ layout_ids columns.
Proof. by rewrite existingIds_layout_ids, elem_of_list_to_set. Qed.

Lemma elem_of_incomingIds data x :
  x ∈ incomingIds data ↔ x ∈ getPostId <$> data.
Proof. unfold incomingIds. by rewrite elem_of_list_to_set. Qed.

Lemma all_posts_filtered prevColumns data :
  all_posts (filtered prevColumns data)
  = filter (λ post, getPostId post ∈ incomingIds data) (all_posts prevColumns).
Proof.
  unfold all_posts, filtered.
  induction prevColumns as [|c prevColumns IH]; [done|].
  by rewrite fmap_cons, !bind_cons, filter_app, IH.
Qed.

Lemma structure_filtered prevColumns data :
  structure (filtered prevColumns data) = structure prevColumns.
Proof.
  unfold structure, filtered. rewrite <-list_fmap_compose.
  by apply list_fmap_ext.
Qed.

Lemma lookup_filtered prevColumns data i :
  filtered prevColumns data !! i
  = (λ column,
       with_posts column
         (filter (λ post, getPostId post ∈ incomingIds data) (posts column)))
    <$> prevColumns !! i.
Proof. unfold filtered. by rewrite list_lookup_fmap. Qed.

Lemma elem_of_layout_ids_filtered prevColumns data x :
  x ∈ layout_ids (filtered prevColumns data)
  ↔ x ∈ incomingIds data ∧ x ∈ layout_ids prevColumns.
Proof.
  unfold layout_ids. rewrite all_posts_filtered.
  by apply (elem_of_ids_filter _ (λ y, y ∈ incomingIds data)).
Qed.

Lemma elem_of_ids_newPosts prevColumns data x :
  x ∈ getPostId <$> newPosts prevColumns data
  ↔ x ∈ incomingIds data ∧ x ∉ layout_ids prevColumns.
Proof.
  unfold newPosts.
  rewrite (elem_of_ids_filter _
             (λ y, y ∉ existingIds (filtered prevColumns data))) by done.
  rewrite elem_of_existingIds, elem_of_layout_ids_filtered,
    elem_of_incomingIds.
  tauto.
Qed.

Lemma grown_by_nil columns : grown_by [] columns columns.
Proof.
  split.
  - apply Forall2_same_length_lookup_2; [done|].
    intros i x y Hx Hy. rewrite Hx in Hy. injection Hy as <-.
    apply column_grown_refl.
  - by rewrite app_nil_r.
Qed.

(** Whenever the updater returns, it returns the filtered layout grown by the
    new posts. *)
Lemma reconcile_grown prevColumns data columns' :
  reconcile prevColumns data = Some columns' →
  grown_by (newPosts prevColumns data) (filtered prevColumns data) columns'.
Proof.
  unfold reconcile. case_decide as Hlen.
  - intros [= <-]. rewrite (nil_length_inv _ Hlen). apply grown_by_nil.
  - rewrite copy_columns. intros Heach.
    destruct (filtered prevColumns data) as [|c columns] eqn:Hf.
    + destruct (newPosts prevColumns data); done.
    + destruct (forEach_push_post_grown (newPosts prevColumns data)
                  (c :: columns)) as (columns'' & Heach' & Hgrown); [done|].
      rewrite Heach in Heach'. by injection Heach' as ->.
Qed.

(** Without any column a new post cannot be pushed: the updater raises. *)
Lemma reconcile_without_columns post data :
  reconcile [] (post :: data) = None.
Proof.
  unfold reconcile.
  assert (newPosts [] (post :: data) = post :: data) as ->.
  { unfold newPosts. apply filter_all. intros p _.
    rewrite elem_of_existingIds. by intros Hin%elem_of_nil. }
  rewrite decide_False by done. apply forEach_push_post_nil.
Qed.

(** The updater returns on every layout that has a column. *)
Lemma reconcile_is_Some prevColumns data :
  prevColumns ≠ [] → is_Some (reconcile prevColumns data).
Proof.
  intros Hne. unfold reconcile. case_decide; [done|].
  rewrite copy_columns.
  destruct (forEach_push_post_grown (newPosts prevColumns data)
              (filtered prevColumns data)) as (columns' & -> & _); [|done].
  unfold filtered. by destruct prevColumns.
Qed.

Lemma reconcile_structure prevColumns data columns' :
  reconcile prevColumns data = Some columns' →
  structure columns' = structure prevColumns.
Proof.
  intros Hrec%reconcile_grown%grown_by_structure.
  by rewrite Hrec, structure_filtered.
Qed.

(** The identifiers of the result, as a set, are the incoming ones. *)
Lemma reconcile_ids prevColumns data columns' x :
  reconcile prevColumns data = Some columns' →
  x ∈ layout_ids columns' ↔ x ∈ getPostId <$> data.
Proof.
  intros [_ Hperm]%reconcile_grown. unfold layout_ids at 1.
  rewrite Hperm, fmap_app, elem_of_app.
  fold (layout_ids (filtered prevColumns data)).
  rewrite elem_of_layout_ids_filtered, elem_of_ids_newPosts,
    elem_of_incomingIds.
  destruct (decide (x ∈ layout_ids prevColumns)); tauto.
Qed.

(** ** Facts about the move *)

Lemma sourceColumnIndex_Some prevColumns activeId s :
  sourceColumnIndex prevColumns activeId = Some s →
  ∃ sourceColumn movingIndex movingPost,
    prevColumns !! s = Some sourceColumn
    ∧ findIndex (λ post, getPostId post = activeId) (posts sourceColumn)
      = Some movingIndex
    ∧ posts sourceColumn !! movingIndex = Some movingPost
    ∧ getPostId movingPost = activeId.
Proof.
  intros (sourceColumn & Hs & Hsome & _)%findIndex_Some.
  destruct (findIndex_is_Some _ _ Hsome) as (i & post & ? & ? & ?).
  by exists sourceColumn, i, post.
Qed.

Lemma targetColumnIndex_Some prevColumns overId t :
  targetColumnIndex prevColumns overId = Some t →
  ∃ column,
    prevColumns !! t = Some column
    ∧ (column_id column = overId ∨ overId ∈ getPostId <$> posts column).
Proof.
  intros (column & Ht & Hmatch & _)%findIndex_Some.
  exists column. split; [done|]. destruct Hmatch as [|Hsome]; [by left|].
  right. apply Exists_exists in Hsome as (post & Hin & <-).
  by apply list_elem_of_fmap_2.
Qed.

(** The updater either keeps the previous columns, in one of its three
    guarded cases, or removes the dragged post from the source column and
    drops it into the target column. *)
Lemma move_updater_cases prevColumns activeId overId :
  (move_updater prevColumns activeId overId = Some KeepPrev
   ∧ (sourceColumnIndex prevColumns activeId = None
      ∨ targetColumnIndex prevColumns overId = None
      ∨ (sourceColumnIndex prevColumns activeId
         = targetColumnIndex prevColumns overId ∧ overId = activeId)))
  ∨ (∃ s t sourceColumn movingIndex movingPost targetColumn,
       sourceColumnIndex prevColumns activeId = Some s
       ∧ targetColumnIndex prevColumns overId = Some t
       ∧ ¬ (s = t ∧ overId = activeId)
       ∧ prevColumns !! s = Some sourceColumn
       ∧ findIndex (λ post, getPostId post = activeId) (posts sourceColumn)
         = Some movingIndex
       ∧ posts sourceColumn !! movingIndex = Some movingPost
       ∧ removed prevColumns s sourceColumn movingIndex !! t
         = Some targetColumn
       ∧ move_updater prevColumns activeId overId
         = Some (Replace
             (<[t := with_posts targetColumn
                       (dropped s t targetColumn overId movingPost)]>
                (removed prevColumns s sourceColumn movingIndex)))).
Proof.
  unfold move_updater.
  destruct (sourceColumnIndex prevColumns activeId) as [s|] eqn:Hs;
    [|left; auto].
  destruct (targetColumnIndex prevColumns overId) as [t|] eqn:Ht;
    [|left; auto].
  case_decide as Hself;
    [left; split; [done|]; right; right; by destruct Hself as [-> ->]|].
  right.
  destruct (sourceColumnIndex_Some _ _ _ Hs)
    as (sourceColumn & movingIndex & movingPost & Hsource & Hidx & Hpost & _).
  destruct (targetColumnIndex_Some _ _ _ Ht) as (targetColumn0 & Htarget & _).
  rewrite copy_columns, Hsource, Htarget. simpl. rewrite Hidx, Hpost.
  fold (removed prevColumns s sourceColumn movingIndex).
  assert (is_Some (removed prevColumns s sourceColumn movingIndex !! t))
    as [targetColumn HtargetColumn].
  { apply lookup_lt_is_Some. unfold removed. rewrite length_insert.
    by eapply lookup_lt_Some. }
  rewrite HtargetColumn. simpl.
  exists s, t, sourceColumn, movingIndex, movingPost, targetColumn.
  split_and!; [done..|]. unfold dropped.
  destruct (decide (s = t)) as [->|Hne].
  - rewrite decide_False by (by intros [? _]). done.
  - destruct (decide (column_id targetColumn = overId)).
    + by rewrite decide_True.
    + rewrite decide_False by (by intros [_ ?]). done.
Qed.

Lemma removed_all_posts prevColumns s sourceColumn movingIndex movingPost :
  prevColumns !! s = Some sourceColumn →
  posts sourceColumn !! movingIndex = Some movingPost →
  movingPost :: all_posts (removed prevColumns s sourceColumn movingIndex)
  ≡ₚ all_posts prevColumns.
Proof.
  intros Hs Hpost. unfold removed.
  rewrite (all_posts_insert _ _ _ _ Hs), (all_posts_split _ _ _ Hs). simpl.
  rewrite <-(splice_remove_Permutation _ _ _ Hpost) at 2.
  solve_Permutation.
Qed.

Lemma removed_structure prevColumns s sourceColumn movingIndex :
  prevColumns !! s = Some sourceColumn →
  structure (removed prevColumns s sourceColumn movingIndex)
  = structure prevColumns.
Proof. intros Hs. by apply (structure_insert _ _ sourceColumn). Qed.

Lemma dropped_Permutation s t targetColumn overId movingPost :
  dropped s t targetColumn overId movingPost
  ≡ₚ movingPost :: posts targetColumn.
Proof.
  unfold dropped. case_decide.
  - by rewrite Permutation_app_comm.
  - apply splice_insert_Permutation.
Qed.

(** The move updater never raises. *)
Lemma move_updater_is_Some prevColumns activeId overId :
  is_Some (move_updater prevColumns activeId overId).
Proof.
  destruct (move_updater_cases prevColumns activeId overId)
    as [[-> _]|(?&?&?&?&?&?&_&_&_&_&_&_&_&->)]; done.
Qed.

(** ** Identifiers of posts and of columns *)

(** A decimal rendering never starts with the letter [c]. *)
Lemma pretty_N_go_ne_c (x : N) s s' :
  s ≠ String "c"%char s' → pretty_N_go x s ≠ String "c"%char s'.
Proof.
  revert s. induction (N.lt_wf_0 x) as [x _ IH]; intros s Hs.
  assert (x = 0 ∨ 0 < x)%N as [->|Hpos] by lia.
  - by rewrite pretty_N_go_0.
  - rewrite pretty_N_go_step by done. apply IH.
    { by apply N.div_lt. }
    unfold pretty_N_char. by repeat case_match.
Qed.

Lemma getPostId_ne_c post s' : getPostId post ≠ String "c"%char s'.
Proof.
  unfold getPostId, pretty, pretty_Z.
  destruct (post_id post) as [|p|p]; [done| |done].
  unfold pretty, pretty_positive, pretty, pretty_N.
  rewrite decide_False by done. by apply pretty_N_go_ne_c.
Qed.

(** So no post is named like a column of the fixed layout. *)
Lemma getPostId_not_column_id columns post :
  fixed_columns columns → getPostId post ∉ column_id <$> columns.
Proof.
  intros Hfixed Hin.
  assert (column_id <$> columns = fst <$> structure createEmptyColumns)
    as Hids.
  { rewrite <-Hfixed. unfold structure. rewrite <-list_fmap_compose.
    by apply list_fmap_ext. }
  rewrite Hids in Hin. vm_compute in Hin.
  repeat (apply elem_of_cons in Hin as [Hin|Hin];
          [by apply getPostId_ne_c in Hin|]).
  by apply elem_of_nil in Hin.
Qed.

Lemma fixed_columns_ne_nil columns : fixed_columns columns → columns ≠ [].
Proof. intros Hfixed ->. discriminate Hfixed. Qed.

(** ** Reconciliation: coverage *)

Lemma layout_ids_filtered_sublist prevColumns data :
  layout_ids (filtered prevColumns data) `sublist_of` layout_ids prevColumns.
Proof.
  unfold layout_ids. rewrite all_posts_filtered.
  apply fmap_sublist, sublist_filter.
Qed.

Lemma ids_newPosts_sublist prevColumns data :
  getPostId <$> newPosts prevColumns data `sublist_of` getPostId <$> data.
Proof. unfold newPosts. apply fmap_sublist, sublist_filter. Qed.

Lemma reconcile_NoDup prevColumns data columns' :
  reconcile prevColumns data = Some columns' →
  NoDup (layout_ids prevColumns) → NoDup (getPostId <$> data) →
  NoDup (layout_ids columns').
Proof.
  intros [_ Hperm]%reconcile_grown Hlayout Hdata. unfold layout_ids.
  rewrite Hperm, fmap_app. apply NoDup_app. split_and!.
  - eapply sublist_NoDup; [exact Hlayout|apply layout_ids_filtered_sublist].
  - intros x Hold [_ Hnew]%elem_of_ids_newPosts.
    apply elem_of_layout_ids_filtered in Hold as [_ Hold]. done.
  - eapply sublist_NoDup; [exact Hdata|apply ids_newPosts_sublist].
Qed.

Lemma reconcile_existingIds prevColumns data columns' :
  reconcile prevColumns data = Some columns' →
  existingIds columns' = incomingIds data.
Proof.
  intros Hrec. apply set_eq. intros x.
  by rewrite elem_of_existingIds, elem_of_incomingIds,
    (reconcile_ids _ _ _ _ Hrec).
Qed.

(** C1 (as amended).  For every layout with at least one column, as the
    fixed four-column layout is, and every incoming list of posts, the
    reconciliation returns a layout whose set of identifiers, taken over all
    columns, is exactly the set of incoming identifiers.  If moreover no
    identifier occurs twice in the previous layout nor twice in the incoming
    list, then no identifier occurs twice in the returned layout, neither in
    two columns nor at two positions of one column. *)
Theorem reconcile_coverage prevColumns data :
  prevColumns ≠ [] →
  ∃ columns',
    reconcile prevColumns data = Some columns'
    ∧ existingIds columns' = incomingIds data
    ∧ (NoDup (layout_ids prevColumns) → NoDup (getPostId <$> data) →
       NoDup (layout_ids columns')).
Proof.
  intros Hne. destruct (reconcile_is_Some prevColumns data Hne) as [columns' Hrec].
  exists columns'. split_and!; [done| |].
  - by eapply reconcile_existingIds.
  - by eapply reconcile_NoDup.
Qed.

Lemma reconcile_coverage_witness :
  layout_of [[mkPost 1; mkPost 2]; [mkPost 3]; []; []] ≠ []
  ∧ ∃ columns',
      reconcile (layout_of [[mkPost 1; mkPost 2]; [mkPost 3]; []; []])
        (mkPost <$> [3; 1; 9]%Z) = Some columns'
      ∧ existingIds columns' = incomingIds (mkPost <$> [3; 1; 9]%Z)
      ∧ NoDup (layout_ids columns').
Proof.
  split; [done|].
  destruct (reconcile_coverage
              (layout_of [[mkPost 1; mkPost 2]; [mkPost 3]; []; []])
              (mkPost <$> [3; 1; 9]%Z)) as (columns' & Hrec & Hset & Hnodup);
    [done|].
  exists columns'. split_and!; [done..|].
  apply Hnodup; apply (bool_decide_unpack _); vm_compute; exact I.
Defined.

(** Two incoming posts with one identifier are both placed: the returned
    layout holds the identifier twice. *)
Lemma reconcile_coverage_counterexample :
  reconcile createEmptyColumns [mkPostAt 7 "a"; mkPostAt 7 "b"]
  = Some (layout_of [[mkPostAt 7 "a"]; [mkPostAt 7 "b"]; []; []])
  ∧ ¬ NoDup (layout_ids
               (layout_of [[mkPostAt 7 "a"]; [mkPostAt 7 "b"]; []; []])).
Proof.
  split; [vm_compute; reflexivity|].
  intros Hnodup. apply (bool_decide_pack _) in Hnodup.
  vm_compute in Hnodup. exact Hnodup.
Qed.

(** An identifier that is twice in the layout, as after the reconciliation
    above, stays twice in it: the filter keeps every post whose identifier is
    incoming. *)
Example reconcile_keeps_layout_duplicates :
  reconcile (layout_of [[mkPostAt 7 "a"]; [mkPostAt 7 "b"]; []; []])
    [mkPostAt 7 "a"]
  = Some (layout_of [[mkPostAt 7 "a"]; [mkPostAt 7 "b"]; []; []]).
Proof. vm_compute. reflexivity. Qed.

(** ** Reconciliation: order preservation *)

Lemma reconcile_lookup prevColumns data columns' i column :
  reconcile prevColumns data = Some columns' →
  prevColumns !! i = Some column →
  ∃ column' app,
    columns' !! i = Some column'
    ∧ column_id column' = column_id column
    ∧ label column' = label column
    ∧ posts column'
      = filter (λ post, getPostId post ∈ incomingIds data) (posts column)
        ++ app
    ∧ app `sublist_of` newPosts prevColumns data.
Proof.
  intros [Hall _]%reconcile_grown Hi.
  assert (filtered prevColumns data !! i
          = Some (with_posts column
                    (filter (λ post, getPostId post ∈ incomingIds data)
                       (posts column)))) as Hf.
  { by rewrite lookup_filtered, Hi. }
  destruct (Forall2_lookup_l _ _ _ _ _ Hall Hf)
    as (column' & Hi' & Hid & Hlabel & app & Hposts & Hsub).
  by exists column', app.
Qed.

Lemma newPosts_fresh prevColumns data post :
  post ∈ newPosts prevColumns data →
  post ∈ data ∧ getPostId post ∉ layout_ids prevColumns.
Proof.
  intros Hin. split.
  - unfold newPosts in Hin. by apply list_elem_of_filter in Hin as [_ ?].
  - apply (list_elem_of_fmap_2 getPostId) in Hin.
    by apply elem_of_ids_newPosts in Hin as [_ ?].
Qed.

(** C2.  For every layout with at least one column and every incoming list,
    the reconciliation returns a layout with the same columns in which each
    column holds its previous posts that are still in the incoming list, in
    their previous order, followed by posts appended at its tail; the
    appended posts are taken from the incoming list in its order and carry
    identifiers that were nowhere in the previous layout.  Hence an
    identifier present before and after occurs in each column exactly where
    it did among the survivors: its posts in any column are the same before
    and after. *)
Theorem reconcile_order_preserved prevColumns data :
  prevColumns ≠ [] →
  ∃ columns',
    reconcile prevColumns data = Some columns'
    ∧ structure columns' = structure prevColumns
    ∧ (∀ i column, prevColumns !! i = Some column →
         ∃ column' app,
           columns' !! i = Some column'
           ∧ posts column'
             = filter (λ post, getPostId post ∈ incomingIds data)
                 (posts column) ++ app
           ∧ app `sublist_of` data
           ∧ ∀ post, post ∈ app → getPostId post ∉ layout_ids prevColumns)
    ∧ (∀ x i column column',
         x ∈ layout_ids prevColumns → x ∈ layout_ids columns' →
         prevColumns !! i = Some column → columns' !! i = Some column' →
         filter (λ post, getPostId post = x) (posts column')
         = filter (λ post, getPostId post = x) (posts column)).
Proof.
  intros Hne.
  destruct (reconcile_is_Some prevColumns data Hne) as [columns' Hrec].
  exists columns'. split_and!; [done|by eapply reconcile_structure| |].
  - intros i column Hi.
    destruct (reconcile_lookup _ _ _ _ _ Hrec Hi)
      as (column' & app & Hi' & _ & _ & Hposts & Hsub).
    exists column', app. split_and!; [done..| |].
    + etrans; [done|]. apply sublist_filter.
    + intros post Hin. apply (sublist_subseteq _ _ Hsub) in Hin.
      by apply newPosts_fresh in Hin as [_ Hin].
  - intros x i column column' Hold Hnew Hi Hi'.
    destruct (reconcile_lookup _ _ _ _ _ Hrec Hi)
      as (column'' & app & Hi'' & _ & _ & Hposts & Hsub).
    rewrite Hi' in Hi''. injection Hi'' as <-.
    rewrite Hposts, filter_app, list_filter_filter.
    rewrite (filter_none _ app), app_nil_r.
    + apply list_filter_iff. intros post. split; [by intros [? _]|].
      intros <-. split; [done|]. apply elem_of_incomingIds.
      by apply (reconcile_ids _ _ _ _ Hrec).
    + intros post Hin <-.
      apply (sublist_subseteq _ _ Hsub) in Hin.
      by apply newPosts_fresh in Hin as [_ Hin].
Qed.

Lemma reconcile_order_preserved_witness :
  layout_of [[mkPost 1; mkPost 2; mkPost 4]; [mkPost 3]; []; []] ≠ []
  ∧ ∃ columns',
      reconcile (layout_of [[mkPost 1; mkPost 2; mkPost 4]; [mkPost 3]; []; []])
        (mkPost <$> [4; 9; 1]%Z) = Some columns'
      ∧ structure columns'
        = structure
            (layout_of [[mkPost 1; mkPost 2; mkPost 4]; [mkPost 3]; []; []]).
Proof.
  split; [done|].
  destruct (reconcile_order_preserved
              (layout_of [[mkPost 1; mkPost 2; mkPost 4]; [mkPost 3]; []; []])
              (mkPost <$> [4; 9; 1]%Z)) as (columns' & Hrec & Hstr & _);
    [done|].
  by exists columns'.
Defined.

(** ** Reconciliation: duplicate identifiers in the incoming list *)

Lemma occurrences_Permutation x (l k : list WordPressPost) :
  l ≡ₚ k → occurrences x l = occurrences x k.
Proof. unfold occurrences. by intros ->. Qed.

Lemma occurrences_app x (l k : list WordPressPost) :
  occurrences x (l ++ k) = occurrences x l + occurrences x k.
Proof. unfold occurrences. by rewrite filter_app, length_app. Qed.

(** C3 (as amended).  For every layout with at least one column and every
    identifier that is not placed in it, the reconciliation places every
    incoming post that carries the identifier: the posts with this
    identifier in the returned layout are those of the incoming list, so the
    layout contains the identifier as many times as the incoming list does,
    twice when the incoming list holds two such posts. *)
Theorem reconcile_places_every_occurrence prevColumns data x :
  prevColumns ≠ [] →
  x ∉ layout_ids prevColumns →
  ∃ columns',
    reconcile prevColumns data = Some columns'
    ∧ filter (λ post, getPostId post = x) (all_posts columns')
      ≡ₚ filter (λ post, getPostId post = x) data
    ∧ occurrences x (all_posts columns') = occurrences x data.
Proof.
  intros Hne Hfresh.
  destruct (reconcile_is_Some prevColumns data Hne) as [columns' Hrec].
  exists columns'. split; [done|].
  pose proof (reconcile_grown _ _ _ Hrec) as [_ Hperm].
  assert (filter (λ post, getPostId post = x) (all_posts columns')
          ≡ₚ filter (λ post, getPostId post = x) data) as Hsame.
  { rewrite Hperm, filter_app, filter_none; simpl.
    - unfold newPosts. rewrite list_filter_filter.
      erewrite list_filter_iff; [done|].
      intros post. split; [by intros [? _]|].
      intros <-. split; [done|].
      rewrite elem_of_existingIds, elem_of_layout_ids_filtered. tauto.
    - intros post Hin <-. apply (list_elem_of_fmap_2 getPostId) in Hin.
      fold (layout_ids (filtered prevColumns data)) in Hin.
      apply elem_of_layout_ids_filtered in Hin. tauto. }
  split; [done|]. unfold occurrences. by rewrite Hsame.
Qed.

Lemma reconcile_places_every_occurrence_witness :
  createEmptyColumns ≠ []
  ∧ ("7" ∉ layout_ids createEmptyColumns)
  ∧ ∃ columns',
      reconcile createEmptyColumns [mkPostAt 7 "a"; mkPost 8; mkPostAt 7 "b"]
      = Some columns'
      ∧ occurrences "7" (all_posts columns') = 2.
Proof.
  split; [done|]. split; [by intros Hin%elem_of_nil|].
  destruct (reconcile_places_every_occurrence createEmptyColumns
              [mkPostAt 7 "a"; mkPost 8; mkPostAt 7 "b"] "7")
    as (columns' & Hrec & _ & Hocc); [done|by intros Hin%elem_of_nil|].
  exists columns'. split; [done|]. rewrite Hocc. vm_compute. reflexivity.
Defined.

(** The second of two incoming posts with one new identifier is placed as
    well, in the next column. *)
Lemma reconcile_first_occurrence_only_counterexample :
  ("7" ∉ layout_ids createEmptyColumns)
  ∧ reconcile createEmptyColumns [mkPostAt 7 "a"; mkPostAt 7 "b"]
    = Some (layout_of [[mkPostAt 7 "a"]; [mkPostAt 7 "b"]; []; []])
  ∧ mkPostAt 7 "b"
    ∈ all_posts (layout_of [[mkPostAt 7 "a"]; [mkPostAt 7 "b"]; []; []])
  ∧ occurrences "7"
      (all_posts (layout_of [[mkPostAt 7 "a"]; [mkPostAt 7 "b"]; []; []]))
    ≠ 1.
Proof.
  split_and!.
  - by intros Hin%elem_of_nil.
  - vm_compute. reflexivity.
  - vm_compute. apply list_elem_of_further, list_elem_of_here.
  - vm_compute. discriminate.
Qed.

(** ** Reconciliation: the balance heuristic *)

Lemma reconcile_forEach prevColumns data :
  reconcile prevColumns data
  = forEach push_post (newPosts prevColumns data) (filtered prevColumns data).
Proof.
  unfold reconcile. case_decide as Hlen.
  - by rewrite (nil_length_inv _ Hlen).
  - by rewrite copy_columns.
Qed.

(** C4.  The reconciliation pushes the new posts one after the other, in the
    order of the incoming list, onto the filtered layout; whenever the layout
    has a column, a push appends the post to the tail of the column that
    holds the fewest posts at that moment, the one of lowest index among
    those.  On the empty four-column layout, five posts with distinct
    identifiers go to columns 0, 1, 2, 3 and 0. *)
Theorem balance_heuristic :
  (∀ columns post,
     columns ≠ [] →
     ∃ t column,
       first_smallest columns t
       ∧ columns !! t = Some column
       ∧ push_post columns post
         = Some (<[t := with_posts column (posts column ++ [post])]> columns))
  ∧ (∀ prevColumns data,
       reconcile prevColumns data
       = forEach push_post (newPosts prevColumns data)
           (filtered prevColumns data)
       ∧ newPosts prevColumns data `sublist_of` data)
  ∧ reconcile createEmptyColumns (mkPost <$> [1; 2; 3; 4; 5]%Z)
    = Some (layout_of
              [[mkPost 1; mkPost 5]; [mkPost 2]; [mkPost 3]; [mkPost 4]]).
Proof.
  split_and!.
  - apply push_post_Some.
  - intros prevColumns data. split; [apply reconcile_forEach|].
    apply sublist_filter.
  - vm_compute. reflexivity.
Qed.

Lemma balance_heuristic_witness :
  layout_of [[mkPost 1]; []; [mkPost 2]; []] ≠ []
  ∧ ∃ t column,
      first_smallest (layout_of [[mkPost 1]; []; [mkPost 2]; []]) t
      ∧ layout_of [[mkPost 1]; []; [mkPost 2]; []] !! t = Some column
      ∧ push_post (layout_of [[mkPost 1]; []; [mkPost 2]; []]) (mkPost 9)
        = Some (<[t := with_posts column (posts column ++ [mkPost 9])]>
                  (layout_of [[mkPost 1]; []; [mkPost 2]; []])).
Proof.
  split; [done|].
  apply (proj1 balance_heuristic
           (layout_of [[mkPost 1]; []; [mkPost 2]; []]) (mkPost 9)).
  done.
Defined.

(** ** Reconciliation: stability *)

Lemma elem_of_all_posts columns column post :
  column ∈ columns → post ∈ posts column → post ∈ all_posts columns.
Proof.
  intros Hcolumn Hpost. unfold all_posts. apply list_elem_of_bind.
  by exists column.
Qed.

(** No new post, so the filtered layout is returned. *)
Lemma reconcile_no_new prevColumns data :
  (∀ post, post ∈ data → getPostId post ∈ layout_ids prevColumns) →
  reconcile prevColumns data = Some (filtered prevColumns data).
Proof.
  intros Hplaced. rewrite reconcile_forEach.
  unfold newPosts. rewrite filter_none; [done|].
  intros post Hin Hnot. apply Hnot.
  rewrite elem_of_existingIds, elem_of_layout_ids_filtered, elem_of_incomingIds.
  split; [by apply list_elem_of_fmap_2|by apply Hplaced].
Qed.

(** A layout whose identifiers are the incoming ones is left as it is. *)
Lemma reconcile_fixpoint columns data :
  (∀ x, x ∈ layout_ids columns ↔ x ∈ getPostId <$> data) →
  reconcile columns data = Some columns.
Proof.
  intros Hids. rewrite reconcile_no_new.
  - f_equal. unfold filtered. rewrite <-(list_fmap_id columns) at 2.
    apply list_fmap_ext. intros i column Hi. simpl.
    rewrite filter_all; [apply with_posts_id|].
    intros post Hin. rewrite elem_of_incomingIds. apply Hids.
    apply list_elem_of_fmap_2, (elem_of_all_posts _ column); [|done].
    by eapply list_elem_of_lookup_2.
  - intros post Hin. apply Hids. by apply list_elem_of_fmap_2.
Qed.

(** C5.  Reconciling the returned layout with the same incoming list once
    more returns it unchanged, for every layout and list on which the first
    reconciliation returns, as it does on every layout with at least one
    column.  And when every incoming identifier is already placed, the
    reconciliation returns the previous layout with the stale posts filtered
    out of each column, the others staying in their order. *)
Theorem reconcile_idempotent :
  (∀ prevColumns data columns',
     reconcile prevColumns data = Some columns' →
     reconcile columns' data = Some columns')
  ∧ (∀ prevColumns data,
       prevColumns ≠ [] →
       ∃ columns',
         reconcile prevColumns data = Some columns'
         ∧ reconcile columns' data = Some columns')
  ∧ (∀ prevColumns data,
       (∀ post, post ∈ data → getPostId post ∈ layout_ids prevColumns) →
       reconcile prevColumns data
       = Some ((λ column,
                  with_posts column
                    (filter (λ post, getPostId post ∈ incomingIds data)
                       (posts column))) <$> prevColumns)).
Proof.
  assert (∀ prevColumns data columns',
            reconcile prevColumns data = Some columns' →
            reconcile columns' data = Some columns') as Hidem.
  { intros prevColumns data columns' Hrec. apply reconcile_fixpoint.
    intros x. by apply (reconcile_ids _ _ _ _ Hrec). }
  split_and!.
  - done.
  - intros prevColumns data Hne.
    destruct (reconcile_is_Some prevColumns data Hne) as [columns' Hrec].
    exists columns'. split; [done|]. by eapply Hidem.
  - apply reconcile_no_new.
Qed.

Lemma reconcile_idempotent_witness :
  (reconcile (layout_of [[mkPost 1; mkPost 2]; [mkPost 3]; []; []])
     (mkPost <$> [5; 2; 6; 3]%Z)
   = Some (layout_of [[mkPost 2]; [mkPost 3]; [mkPost 5]; [mkPost 6]])
   ∧ reconcile (layout_of [[mkPost 2]; [mkPost 3]; [mkPost 5]; [mkPost 6]])
       (mkPost <$> [5; 2; 6; 3]%Z)
     = Some (layout_of [[mkPost 2]; [mkPost 3]; [mkPost 5]; [mkPost 6]]))
  ∧ (layout_of [[mkPost 1; mkPost 2]; [mkPost 3]; []; []] ≠ []
     ∧ ∃ columns',
         reconcile (layout_of [[mkPost 1; mkPost 2]; [mkPost 3]; []; []])
           (mkPost <$> [5; 2; 6; 3]%Z) = Some columns'
         ∧ reconcile columns' (mkPost <$> [5; 2; 6; 3]%Z) = Some columns')
  ∧ (Forall
       (λ post,
          getPostId post
          ∈ layout_ids (layout_of [[mkPost 1; mkPost 2]; [mkPost 3]; []; []]))
       (mkPost <$> [3; 1]%Z)
     ∧ reconcile (layout_of [[mkPost 1; mkPost 2]; [mkPost 3]; []; []])
         (mkPost <$> [3; 1]%Z)
       = Some (layout_of [[mkPost 1]; [mkPost 3]; []; []])).
Proof.
  assert (reconcile (layout_of [[mkPost 1; mkPost 2]; [mkPost 3]; []; []])
            (mkPost <$> [5; 2; 6; 3]%Z)
          = Some (layout_of [[mkPost 2]; [mkPost 3]; [mkPost 5]; [mkPost 6]]))
    as Hfirst by (vm_compute; reflexivity).
  assert (Forall
            (λ post,
               getPostId post
               ∈ layout_ids
                   (layout_of [[mkPost 1; mkPost 2]; [mkPost 3]; []; []]))
            (mkPost <$> [3; 1]%Z)) as Hplaced
    by (apply (bool_decide_unpack _); vm_compute; exact I).
  split_and!.
  - exact Hfirst.
  - exact (proj1 reconcile_idempotent _ _ _ Hfirst).
  - done.
  - by apply (proj1 (proj2 reconcile_idempotent)).
  - exact Hplaced.
  - rewrite (proj2 (proj2 reconcile_idempotent) _ _
               (proj1 (Forall_forall _ _) Hplaced)).
    vm_compute. reflexivity.
Defined.

(** ** Resolution of the source and target columns *)

Lemma findIndex_ext_in {A} (P Q : A → Prop) `{!∀ x, Decision (P x)}
    `{!∀ x, Decision (Q x)} (l : list A) :
  (∀ x, x ∈ l → P x ↔ Q x) → findIndex P l = findIndex Q l.
Proof.
  intros Hiff. destruct (findIndex Q l) as [i|] eqn:HQ.
  - apply findIndex_Some in HQ as (x & Hi & Hx & Hfirst).
    apply findIndex_Some. exists x. split_and!; [done| |].
    + apply Hiff; [by eapply list_elem_of_lookup_2|done].
    + intros j y Hj Hlt HP. apply (Hfirst j y Hj Hlt).
      apply Hiff; [by eapply list_elem_of_lookup_2|done].
  - apply findIndex_None. apply findIndex_None in HQ.
    rewrite Forall_forall in *. intros x Hin HP.
    apply (HQ x Hin). by apply Hiff.
Qed.

Lemma sourceColumnIndex_None prevColumns activeId :
  activeId ∉ layout_ids prevColumns →
  sourceColumnIndex prevColumns activeId = None.
Proof.
  intros Hnot. apply findIndex_None, Forall_forall.
  intros column Hcolumn Hsome. apply Hnot.
  apply Exists_exists in Hsome as (post & Hin & <-).
  apply list_elem_of_fmap_2. by apply (elem_of_all_posts _ column).
Qed.

Lemma targetColumnIndex_None prevColumns overId :
  overId ∉ column_id <$> prevColumns → overId ∉ layout_ids prevColumns →
  targetColumnIndex prevColumns overId = None.
Proof.
  intros Hcolumn Hnot. apply findIndex_None, Forall_forall.
  intros column Hin [<-|Hsome].
  - by apply Hcolumn, list_elem_of_fmap_2.
  - apply Hnot. apply Exists_exists in Hsome as (post & Hpost & <-).
    apply list_elem_of_fmap_2. by apply (elem_of_all_posts _ column).
Qed.

(** Without a column named like the post, the post resolves to its own
    column as a drop target. *)
Lemma targetColumnIndex_self prevColumns activeId :
  activeId ∉ column_id <$> prevColumns →
  targetColumnIndex prevColumns activeId
  = sourceColumnIndex prevColumns activeId.
Proof.
  intros Hcolumn. apply findIndex_ext_in. intros column Hin. split.
  - intros [<-|Hsome]; [|done]. destruct Hcolumn.
    by apply list_elem_of_fmap_2.
  - by right.
Qed.

(** ** Move application: where the dragged post lands *)

Lemma not_elem_of_ids_Forall (l : list WordPressPost) x :
  x ∉ getPostId <$> l → Forall (λ post, ¬ getPostId post = x) l.
Proof.
  intros Hnot. apply Forall_forall. intros post Hin <-.
  by apply Hnot, list_elem_of_fmap_2.
Qed.

(** The updater on a resolved, non-degenerate gesture, with the source column
    split around the dragged post. *)
Lemma move_updater_Replace prevColumns activeId overId s t sourceColumn
    pre movingPost suf targetColumn :
  sourceColumnIndex prevColumns activeId = Some s →
  targetColumnIndex prevColumns overId = Some t →
  ¬ (s = t ∧ overId = activeId) →
  prevColumns !! s = Some sourceColumn →
  posts sourceColumn = pre ++ movingPost :: suf →
  getPostId movingPost = activeId →
  activeId ∉ getPostId <$> pre →
  <[s := with_posts sourceColumn (pre ++ suf)]> prevColumns !! t
  = Some targetColumn →
  move_updater prevColumns activeId overId
  = Some (Replace
      (<[t := with_posts targetColumn
                (dropped s t targetColumn overId movingPost)]>
         (<[s := with_posts sourceColumn (pre ++ suf)]> prevColumns))).
Proof.
  intros Hs Ht Hself Hsource Hposts Hid Hpre Htarget.
  destruct (move_updater_cases prevColumns activeId overId)
    as [[_ [Hnone|[Hnone|[Heq Hover]]]]
       |(s' & t' & sourceColumn' & movingIndex & movingPost' & targetColumn'
         & Hs' & Ht' & _ & Hsource' & Hidx & Hpost & Htarget' & ->)].
  - by rewrite Hs in Hnone.
  - by rewrite Ht in Hnone.
  - rewrite Hs, Ht in Heq. injection Heq as <-. by destruct Hself.
  - rewrite Hs in Hs'. injection Hs' as <-.
    rewrite Ht in Ht'. injection Ht' as <-.
    rewrite Hsource in Hsource'. injection Hsource' as <-.
    rewrite Hposts in Hidx, Hpost.
    rewrite (findIndex_middle _ pre movingPost suf) in Hidx
      by (done || by apply not_elem_of_ids_Forall).
    injection Hidx as <-.
    rewrite list_lookup_middle in Hpost by done. injection Hpost as <-.
    unfold removed in *. rewrite Hposts, splice_remove_middle in *.
    rewrite Htarget in Htarget'. by injection Htarget' as <-.
Qed.

(** A drop over a post of another column. *)
Lemma applyMove_over_post prevColumns s t sourceColumn targetColumn
    pre movingPost suf pre' overPost suf' :
  sourceColumnIndex prevColumns (getPostId movingPost) = Some s →
  targetColumnIndex prevColumns (getPostId overPost) = Some t →
  s ≠ t →
  prevColumns !! s = Some sourceColumn →
  prevColumns !! t = Some targetColumn →
  column_id targetColumn ≠ getPostId overPost →
  posts sourceColumn = pre ++ movingPost :: suf →
  getPostId movingPost ∉ getPostId <$> pre →
  posts targetColumn = pre' ++ overPost :: suf' →
  getPostId overPost ∉ getPostId <$> pre' →
  applyMove prevColumns (getPostId movingPost) (getPostId overPost)
  = Some (<[t := with_posts targetColumn
                    (pre' ++ movingPost :: overPost :: suf')]>
            (<[s := with_posts sourceColumn (pre ++ suf)]> prevColumns)).
Proof.
  intros Hs Ht Hne Hsource Htarget Hcolumn Hposts Hpre Hposts' Hpre'.
  unfold applyMove.
  rewrite (move_updater_Replace _ _ _ s t sourceColumn pre movingPost suf
             targetColumn Hs Ht (λ H, Hne (proj1 H)) Hsource Hposts eq_refl
             Hpre)
    by (by rewrite list_lookup_insert_ne).
  simpl. do 3 f_equal. unfold dropped.
  rewrite decide_False by (by intros [_ ?]).
  unfold insertIndex. rewrite Hposts'.
  rewrite (findIndex_middle _ pre' overPost suf')
    by (done || by apply not_elem_of_ids_Forall).
  apply splice_insert_middle.
Qed.

(** A drop over an identifier that no post of the target column carries. *)
Lemma applyMove_not_found prevColumns activeId overId s t sourceColumn
    pre movingPost suf targetColumn :
  sourceColumnIndex prevColumns activeId = Some s →
  targetColumnIndex prevColumns overId = Some t →
  ¬ (s = t ∧ overId = activeId) →
  prevColumns !! s = Some sourceColumn →
  posts sourceColumn = pre ++ movingPost :: suf →
  getPostId movingPost = activeId →
  activeId ∉ getPostId <$> pre →
  <[s := with_posts sourceColumn (pre ++ suf)]> prevColumns !! t
  = Some targetColumn →
  overId ∉ getPostId <$> posts targetColumn →
  applyMove prevColumns activeId overId
  = Some (<[t := with_posts targetColumn (posts targetColumn ++ [movingPost])]>
            (<[s := with_posts sourceColumn (pre ++ suf)]> prevColumns)).
Proof.
  intros Hs Ht Hself Hsource Hposts Hid Hpre Htarget Hover.
  unfold applyMove.
  rewrite (move_updater_Replace _ _ _ s t sourceColumn pre movingPost suf
             targetColumn) by done.
  simpl. do 3 f_equal. unfold dropped. case_decide; [done|].
  unfold insertIndex.
  rewrite (proj2 (findIndex_None _ (posts targetColumn)))
    by (by apply not_elem_of_ids_Forall).
  apply splice_insert_end.
Qed.

(** Where no identifier occurs twice, an identifier is in one column only. *)
Lemma NoDup_layout_ids_lt columns i j ci cj x :
  NoDup (layout_ids columns) → i < j →
  columns !! i = Some ci → columns !! j = Some cj →
  x ∈ getPostId <$> posts ci → x ∉ getPostId <$> posts cj.
Proof.
  intros Hnodup Hlt Hi Hj Hxi Hxj. unfold layout_ids in Hnodup.
  rewrite (all_posts_split _ _ _ Hj), fmap_app in Hnodup.
  apply NoDup_app in Hnodup as (_ & Hdisjoint & _).
  apply (Hdisjoint x).
  - apply list_elem_of_fmap in Hxi as (post & -> & Hin).
    apply list_elem_of_fmap_2, (elem_of_all_posts _ ci); [|done].
    apply (list_elem_of_lookup_2 _ i). by rewrite lookup_take_lt.
  - rewrite fmap_app. apply elem_of_app. by left.
Qed.

Lemma NoDup_layout_ids_column columns i j ci cj x :
  NoDup (layout_ids columns) →
  columns !! i = Some ci → columns !! j = Some cj →
  x ∈ getPostId <$> posts ci → x ∈ getPostId <$> posts cj → i = j.
Proof.
  intros Hnodup Hi Hj Hxi Hxj.
  destruct (Nat.lt_trichotomy i j) as [Hlt|[->|Hlt]]; [|done|].
  - by destruct (NoDup_layout_ids_lt _ _ _ _ _ _ Hnodup Hlt Hi Hj Hxi).
  - by destruct (NoDup_layout_ids_lt _ _ _ _ _ _ Hnodup Hlt Hj Hi Hxj).
Qed.

Lemma NoDup_column_ids columns i column :
  NoDup (layout_ids columns) → columns !! i = Some column →
  NoDup (getPostId <$> posts column).
Proof.
  intros Hnodup Hi. unfold layout_ids in Hnodup.
  rewrite (all_posts_split _ _ _ Hi), !fmap_app in Hnodup.
  apply NoDup_app in Hnodup as (_ & _ & Hnodup).
  by apply NoDup_app in Hnodup as (Hnodup & _).
Qed.

Lemma sourceColumnIndex_NoDup columns s column x :
  NoDup (layout_ids columns) → columns !! s = Some column →
  x ∈ getPostId <$> posts column →
  sourceColumnIndex columns x = Some s.
Proof.
  intros Hnodup Hs Hx. apply findIndex_Some. exists column. split_and!.
  - done.
  - apply list_elem_of_fmap in Hx as (post & -> & Hin).
    apply Exists_exists. by exists post.
  - intros j cj Hj Hlt Hsome.
    apply Exists_exists in Hsome as (post & Hin & <-).
    assert (j = s) as ->; [|lia].
    eapply (NoDup_layout_ids_column columns); [done..| |done].
    by apply list_elem_of_fmap_2.
Qed.

(** The same drop on a layout of the fixed columns in which no identifier
    occurs twice: the columns that hold the two posts are the resolved
    ones. *)
Lemma applyMove_over_post_fixed prevColumns s t sourceColumn targetColumn
    pre movingPost suf pre' overPost suf' :
  fixed_columns prevColumns →
  NoDup (layout_ids prevColumns) →
  s ≠ t →
  prevColumns !! s = Some sourceColumn →
  prevColumns !! t = Some targetColumn →
  posts sourceColumn = pre ++ movingPost :: suf →
  posts targetColumn = pre' ++ overPost :: suf' →
  applyMove prevColumns (getPostId movingPost) (getPostId overPost)
  = Some (<[t := with_posts targetColumn
                    (pre' ++ movingPost :: overPost :: suf')]>
            (<[s := with_posts sourceColumn (pre ++ suf)]> prevColumns)).
Proof.
  intros Hfixed Hnodup Hne Hsource Htarget Hposts Hposts'.
  pose proof (NoDup_column_ids _ _ _ Hnodup Hsource) as Hnodup_s.
  pose proof (NoDup_column_ids _ _ _ Hnodup Htarget) as Hnodup_t.
  rewrite Hposts, fmap_app, fmap_cons in Hnodup_s.
  rewrite Hposts', fmap_app, fmap_cons in Hnodup_t.
  apply NoDup_app in Hnodup_s as (_ & Hpre & _).
  apply NoDup_app in Hnodup_t as (_ & Hpre' & _).
  apply (applyMove_over_post _ s t sourceColumn targetColumn
           pre movingPost suf pre' overPost suf'); try done.
  - apply sourceColumnIndex_NoDup with sourceColumn; [done..|].
    rewrite Hposts, fmap_app, fmap_cons. set_solver.
  - rewrite targetColumnIndex_self
      by (by apply getPostId_not_column_id).
    apply sourceColumnIndex_NoDup with targetColumn; [done..|].
    rewrite Hposts', fmap_app, fmap_cons. set_solver.
  - intros Hcolumn.
    apply (getPostId_not_column_id prevColumns overPost Hfixed).
    rewrite <-Hcolumn. apply list_elem_of_fmap_2.
    by eapply list_elem_of_lookup_2.
  - intros Hin. apply (Hpre _ Hin). by left.
  - intros Hin. apply (Hpre' _ Hin). by left.
Qed.

(** C6.  On the layout [[1,2],[3],[],[]], dragging post 2 over post 3 gives
    [[1],[2,3],[],[]].  In general, when the drag ends over the identifier of
    a post of another column (the source column being the one resolved for
    the dragged identifier, the target column the one resolved for the
    identifier dropped over, and that identifier not being the identity of
    the target column itself), the dragged post leaves its source column and
    enters the target column immediately before the post it was dropped
    over; on a layout of the fixed columns in which no identifier occurs
    twice, these are simply the columns that hold the two posts.  And on
    every resolved gesture that is not a drop on itself, when the identifier
    dropped over is not found among the posts of the target column, the
    dragged post is inserted at the end of the target column. *)
Theorem applyMove_insert_before :
  applyMove (layout_of [[mkPost 1; mkPost 2]; [mkPost 3]; []; []]) "2" "3"
  = Some (layout_of [[mkPost 1]; [mkPost 2; mkPost 3]; []; []])
  ∧ (∀ prevColumns s t sourceColumn targetColumn
       pre movingPost suf pre' overPost suf',
       sourceColumnIndex prevColumns (getPostId movingPost) = Some s →
       targetColumnIndex prevColumns (getPostId overPost) = Some t →
       s ≠ t →
       prevColumns !! s = Some sourceColumn →
       prevColumns !! t = Some targetColumn →
       column_id targetColumn ≠ getPostId overPost →
       posts sourceColumn = pre ++ movingPost :: suf →
       getPostId movingPost ∉ getPostId <$> pre →
       posts targetColumn = pre' ++ overPost :: suf' →
       getPostId overPost ∉ getPostId <$> pre' →
       applyMove prevColumns (getPostId movingPost) (getPostId overPost)
       = Some (<[t := with_posts targetColumn
                         (pre' ++ movingPost :: overPost :: suf')]>
                 (<[s := with_posts sourceColumn (pre ++ suf)]> prevColumns)))
  ∧ (∀ prevColumns s t sourceColumn targetColumn
       pre movingPost suf pre' overPost suf',
       fixed_columns prevColumns →
       NoDup (layout_ids prevColumns) →
       s ≠ t →
       prevColumns !! s = Some sourceColumn →
       prevColumns !! t = Some targetColumn →
       posts sourceColumn = pre ++ movingPost :: suf →
       posts targetColumn = pre' ++ overPost :: suf' →
       applyMove prevColumns (getPostId movingPost) (getPostId overPost)
       = Some (<[t := with_posts targetColumn
                         (pre' ++ movingPost :: overPost :: suf')]>
                 (<[s := with_posts sourceColumn (pre ++ suf)]> prevColumns)))
  ∧ (∀ prevColumns activeId overId s t sourceColumn pre movingPost suf
       targetColumn,
       sourceColumnIndex prevColumns activeId = Some s →
       targetColumnIndex prevColumns overId = Some t →
       ¬ (s = t ∧ overId = activeId) →
       prevColumns !! s = Some sourceColumn →
       posts sourceColumn = pre ++ movingPost :: suf →
       getPostId movingPost = activeId →
       activeId ∉ getPostId <$> pre →
       <[s := with_posts sourceColumn (pre ++ suf)]> prevColumns !! t
       = Some targetColumn →
       overId ∉ getPostId <$> posts targetColumn →
       applyMove prevColumns activeId overId
       = Some (<[t := with_posts targetColumn
                         (posts targetColumn ++ [movingPost])]>
                 (<[s := with_posts sourceColumn (pre ++ suf)]> prevColumns))).
Proof.
  split_and!.
  - vm_compute. reflexivity.
  - apply applyMove_over_post.
  - apply applyMove_over_post_fixed.
  - apply applyMove_not_found.
Qed.

Lemma applyMove_insert_before_witness :
  (sourceColumnIndex
     (layout_of [[mkPost 1; mkPost 2; mkPost 5]; [mkPost 3; mkPost 4]; []; []])
     (getPostId (mkPost 2)) = Some 0
   ∧ targetColumnIndex
       (layout_of
          [[mkPost 1; mkPost 2; mkPost 5]; [mkPost 3; mkPost 4]; []; []])
       (getPostId (mkPost 4)) = Some 1
   ∧ 0 ≠ 1
   ∧ column_id (column_at 1 [mkPost 3; mkPost 4]) ≠ getPostId (mkPost 4)
   ∧ (getPostId (mkPost 2) ∉ getPostId <$> [mkPost 1])
   ∧ (getPostId (mkPost 4) ∉ getPostId <$> [mkPost 3])
   ∧ applyMove
       (layout_of
          [[mkPost 1; mkPost 2; mkPost 5]; [mkPost 3; mkPost 4]; []; []])
       (getPostId (mkPost 2)) (getPostId (mkPost 4))
     = Some (layout_of
               [[mkPost 1; mkPost 5]; [mkPost 3; mkPost 2; mkPost 4]; []; []]))
  ∧ (sourceColumnIndex (layout_of [[mkPost 1; mkPost 2]; [mkPost 3]; []; []])
       "2" = Some 0
     ∧ targetColumnIndex
         (layout_of [[mkPost 1; mkPost 2]; [mkPost 3]; []; []]) "column-1"
       = Some 1
     ∧ ¬ (0 = 1 ∧ "column-1" = "2")
     ∧ ("column-1" ∉ getPostId <$> [mkPost 3])
     ∧ applyMove (layout_of [[mkPost 1; mkPost 2]; [mkPost 3]; []; []])
         "2" "column-1"
       = Some (layout_of [[mkPost 1]; [mkPost 3; mkPost 2]; []; []]))
  ∧ (fixed_columns
       (layout_of [[mkPost 1]; [mkPost 3; mkPost 4]; [mkPost 2]; []])
     ∧ NoDup
         (layout_ids
            (layout_of [[mkPost 1]; [mkPost 3; mkPost 4]; [mkPost 2]; []]))
     ∧ 1 ≠ 2
     ∧ applyMove
         (layout_of [[mkPost 1]; [mkPost 3; mkPost 4]; [mkPost 2]; []])
         (getPostId (mkPost 4)) (getPostId (mkPost 2))
       = Some (layout_of [[mkPost 1]; [mkPost 3]; [mkPost 4; mkPost 2]; []])).
Proof.
  assert (NoDup
            (layout_ids
               (layout_of [[mkPost 1]; [mkPost 3; mkPost 4]; [mkPost 2]; []])))
    as Hnodup by (apply (bool_decide_unpack _); vm_compute; exact I).
  assert (getPostId (mkPost 2) ∉ getPostId <$> [mkPost 1]) as Hpre
    by (apply (bool_decide_unpack _); vm_compute; exact I).
  assert (getPostId (mkPost 4) ∉ getPostId <$> [mkPost 3]) as Hpre'
    by (apply (bool_decide_unpack _); vm_compute; exact I).
  assert ("column-1" ∉ getPostId <$> [mkPost 3]) as Hover
    by (apply (bool_decide_unpack _); vm_compute; exact I).
  assert ("2" ∉ getPostId <$> [mkPost 1]) as Hpre2
    by (apply (bool_decide_unpack _); vm_compute; exact I).
  assert (column_id (column_at 1 [mkPost 3; mkPost 4]) ≠ getPostId (mkPost 4))
    as Hcolumn by (vm_compute; discriminate).
  split; [|split]; split_and!.
  - vm_compute. reflexivity.
  - vm_compute. reflexivity.
  - done.
  - exact Hcolumn.
  - exact Hpre.
  - exact Hpre'.
  - rewrite (proj1 (proj2 applyMove_insert_before)
               (layout_of [[mkPost 1; mkPost 2; mkPost 5];
                           [mkPost 3; mkPost 4]; []; []])
               0 1 (column_at 0 [mkPost 1; mkPost 2; mkPost 5])
               (column_at 1 [mkPost 3; mkPost 4])
               [mkPost 1] (mkPost 2) [mkPost 5] [mkPost 3] (mkPost 4) []);
      try done; vm_compute; reflexivity.
  - vm_compute. reflexivity.
  - vm_compute. reflexivity.
  - by intros [? _].
  - exact Hover.
  - rewrite (proj2 (proj2 (proj2 applyMove_insert_before))
               (layout_of [[mkPost 1; mkPost 2]; [mkPost 3]; []; []])
               "2" "column-1" 0 1 (column_at 0 [mkPost 1; mkPost 2])
               [mkPost 1] (mkPost 2) [] (column_at 1 [mkPost 3]));
      try done; try (by intros [? _]); vm_compute; reflexivity.
  - vm_compute. reflexivity.
  - exact Hnodup.
  - done.
  - rewrite (proj1 (proj2 (proj2 applyMove_insert_before))
               (layout_of [[mkPost 1]; [mkPost 3; mkPost 4]; [mkPost 2]; []])
               1 2 (column_at 1 [mkPost 3; mkPost 4]) (column_at 2 [mkPost 2])
               [mkPost 3] (mkPost 4) [] [] (mkPost 2) []);
      try done; vm_compute; reflexivity.
Defined.

(** ** Move application: the gestures that change nothing *)

Lemma move_updater_KeepPrev prevColumns activeId overId :
  sourceColumnIndex prevColumns activeId = None
  ∨ targetColumnIndex prevColumns overId = None
  ∨ (sourceColumnIndex prevColumns activeId
     = targetColumnIndex prevColumns overId ∧ overId = activeId) →
  move_updater prevColumns activeId overId = Some KeepPrev.
Proof.
  intros Hguard.
  destruct (move_updater_cases prevColumns activeId overId)
    as [[-> _]|(s & t & _ & _ & _ & _ & Hs & Ht & Hself & _)]; [done|].
  rewrite Hs, Ht in Hguard.
  destruct Hguard as [?|[?|[[= <-] ->]]]; [done..|]. by destruct Hself.
Qed.

Lemma KeepPrev_keeps prevColumns activeId overId :
  move_updater prevColumns activeId overId = Some KeepPrev →
  keeps prevColumns activeId overId.
Proof. intros Hkeep. split; [done|]. unfold applyMove. by rewrite Hkeep. Qed.

(** C7.  The move updater returns the previous columns themselves, so that
    the layout is unchanged, when the dragged identifier is in no column;
    when the identifier dropped over is neither the identity of a column nor
    the identifier of a placed post; and when it is the dragged identifier
    itself and resolves to the source column, which it always does on the
    fixed columns.  On [[1],[],[],[]], dragging post 1 over "nonexistent"
    leaves the layout as it is. *)
Theorem applyMove_noop :
  (∀ prevColumns activeId overId,
     activeId ∉ layout_ids prevColumns → keeps prevColumns activeId overId)
  ∧ (∀ prevColumns activeId overId,
       overId ∉ column_id <$> prevColumns →
       overId ∉ layout_ids prevColumns →
       keeps prevColumns activeId overId)
  ∧ (∀ prevColumns activeId overId,
       sourceColumnIndex prevColumns activeId
       = targetColumnIndex prevColumns overId →
       overId = activeId →
       keeps prevColumns activeId overId)
  ∧ (∀ prevColumns post,
       fixed_columns prevColumns →
       keeps prevColumns (getPostId post) (getPostId post))
  ∧ keeps (layout_of [[mkPost 1]; []; []; []]) "1" "nonexistent".
Proof.
  split_and!.
  - intros prevColumns activeId overId Hnot.
    apply KeepPrev_keeps, move_updater_KeepPrev. left.
    by apply sourceColumnIndex_None.
  - intros prevColumns activeId overId Hcolumn Hnot.
    apply KeepPrev_keeps, move_updater_KeepPrev. right. left.
    by apply targetColumnIndex_None.
  - intros prevColumns activeId overId Hsame Hself.
    apply KeepPrev_keeps, move_updater_KeepPrev. by right; right.
  - intros prevColumns post Hfixed.
    apply KeepPrev_keeps, move_updater_KeepPrev. right. right.
    split; [|done]. symmetry.
    by apply targetColumnIndex_self, getPostId_not_column_id.
  - split; vm_compute; reflexivity.
Qed.

Lemma applyMove_noop_witness :
  (("9" ∉ layout_ids (layout_of [[mkPost 1]; [mkPost 2]; []; []]))
   ∧ keeps (layout_of [[mkPost 1]; [mkPost 2]; []; []]) "9" "2")
  ∧ (("nonexistent"
      ∉ column_id <$> layout_of [[mkPost 1]; [mkPost 2]; []; []])
     ∧ ("nonexistent" ∉ layout_ids (layout_of [[mkPost 1]; [mkPost 2]; []; []]))
     ∧ keeps (layout_of [[mkPost 1]; [mkPost 2]; []; []]) "1" "nonexistent")
  ∧ (sourceColumnIndex (layout_of [[mkPost 1]; [mkPost 2]; []; []]) "2"
     = targetColumnIndex (layout_of [[mkPost 1]; [mkPost 2]; []; []]) "2"
     ∧ keeps (layout_of [[mkPost 1]; [mkPost 2]; []; []]) "2" "2")
  ∧ (fixed_columns (layout_of [[mkPost 1]; [mkPost 2]; []; []])
     ∧ keeps (layout_of [[mkPost 1]; [mkPost 2]; []; []])
         (getPostId (mkPost 2)) (getPostId (mkPost 2))).
Proof.
  assert ("9" ∉ layout_ids (layout_of [[mkPost 1]; [mkPost 2]; []; []]))
    as Hactive by (apply (bool_decide_unpack _); vm_compute; exact I).
  assert ("nonexistent"
          ∉ column_id <$> layout_of [[mkPost 1]; [mkPost 2]; []; []])
    as Hcolumn by (apply (bool_decide_unpack _); vm_compute; exact I).
  assert ("nonexistent"
          ∉ layout_ids (layout_of [[mkPost 1]; [mkPost 2]; []; []]))
    as Hover by (apply (bool_decide_unpack _); vm_compute; exact I).
  assert (sourceColumnIndex (layout_of [[mkPost 1]; [mkPost 2]; []; []]) "2"
          = targetColumnIndex (layout_of [[mkPost 1]; [mkPost 2]; []; []]) "2")
    as Hsame by (vm_compute; reflexivity).
  assert (fixed_columns (layout_of [[mkPost 1]; [mkPost 2]; []; []]))
    as Hfixed by (vm_compute; reflexivity).
  destruct applyMove_noop as (Hno_source & Hno_target & Hself & Hself' & _).
  split_and!.
  - exact Hactive.
  - by apply Hno_source.
  - exact Hcolumn.
  - exact Hover.
  - by apply Hno_target.
  - exact Hsame.
  - by apply Hself.
  - exact Hfixed.
  - by apply Hself'.
Defined.

(** ** Move application: frame and conservation *)

Lemma move_updater_structure prevColumns activeId overId updatedColumns :
  move_updater prevColumns activeId overId = Some (Replace updatedColumns) →
  structure updatedColumns = structure prevColumns.
Proof.
  intros Hmove.
  destruct (move_updater_cases prevColumns activeId overId)
    as [[Hkeep _]
       |(s & t & sourceColumn & movingIndex & movingPost & targetColumn
         & _ & _ & _ & Hsource & _ & _ & Htarget & Hmove')].
  - rewrite Hkeep in Hmove. discriminate Hmove.
  - rewrite Hmove' in Hmove. injection Hmove as <-.
    rewrite (structure_insert _ _ targetColumn) by done.
    by apply removed_structure.
Qed.

Lemma move_updater_all_posts prevColumns activeId overId updatedColumns :
  move_updater prevColumns activeId overId = Some (Replace updatedColumns) →
  all_posts updatedColumns ≡ₚ all_posts prevColumns.
Proof.
  intros Hmove.
  destruct (move_updater_cases prevColumns activeId overId)
    as [[Hkeep _]
       |(s & t & sourceColumn & movingIndex & movingPost & targetColumn
         & _ & _ & _ & Hsource & _ & Hpost & Htarget & Hmove')].
  - rewrite Hkeep in Hmove. discriminate Hmove.
  - rewrite Hmove' in Hmove. injection Hmove as <-.
    rewrite (all_posts_insert_Permutation _ _ targetColumn _ [movingPost])
      by (done || apply dropped_Permutation).
    by apply removed_all_posts.
Qed.

Lemma applyMove_Some prevColumns activeId overId :
  ∃ columns',
    applyMove prevColumns activeId overId = Some columns'
    ∧ structure columns' = structure prevColumns
    ∧ all_posts columns' ≡ₚ all_posts prevColumns.
Proof.
  unfold applyMove.
  destruct (move_updater_is_Some prevColumns activeId overId) as [r Hr].
  rewrite Hr. destruct r as [|updatedColumns]; simpl.
  - by exists prevColumns.
  - exists updatedColumns. split_and!; [done| |].
    + by eapply move_updater_structure.
    + by eapply move_updater_all_posts.
Qed.

(** C8 (as amended).  Both transitions return on every input of the fixed
    column structure and return a layout of that structure: the
    reconciliation for every layout with at least one column and every
    incoming list, the move for every layout and every pair of identifiers,
    and so do the effect and the drag handler around them, which leave the
    layout alone when there is no list or no drop target.  The returned
    layout has the columns of the previous one, identity by identity and
    label by label.  Its identifiers are, as a set, the incoming ones after a
    reconciliation and the previous ones after a move.  No identifier occurs
    twice in it provided none occurs twice in the previous layout and, for a
    reconciliation, none occurs twice in the incoming list; on a list that
    repeats an identifier the reconciliation still returns, but a layout
    that holds the identifier twice. *)
Theorem transitions_total :
  (∀ prevColumns data,
     prevColumns ≠ [] →
     ∃ columns',
       reconcile prevColumns data = Some columns'
       ∧ structure columns' = structure prevColumns
       ∧ existingIds columns' = incomingIds data
       ∧ (NoDup (layout_ids prevColumns) → NoDup (getPostId <$> data) →
          NoDup (layout_ids columns')))
  ∧ (∀ prevColumns activeId overId,
       ∃ columns',
         applyMove prevColumns activeId overId = Some columns'
         ∧ structure columns' = structure prevColumns
         ∧ existingIds columns' = existingIds prevColumns
         ∧ (NoDup (layout_ids prevColumns) → NoDup (layout_ids columns')))
  ∧ (∀ prevColumns (fetched : option (list WordPressPost)),
       prevColumns ≠ [] →
       ∃ columns',
         onItemsFetched prevColumns fetched = Some columns'
         ∧ structure columns' = structure prevColumns
         ∧ match fetched with
           | Some data =>
             existingIds columns' = incomingIds data
             ∧ (NoDup (layout_ids prevColumns) → NoDup (getPostId <$> data) →
                NoDup (layout_ids columns'))
           | None => columns' = prevColumns
           end)
  ∧ (∀ prevColumns active over,
       ∃ columns',
         handleDragEnd prevColumns active over = Some columns'
         ∧ structure columns' = structure prevColumns
         ∧ existingIds columns' = existingIds prevColumns
         ∧ (NoDup (layout_ids prevColumns) → NoDup (layout_ids columns'))).
Proof.
  assert (∀ prevColumns data,
            prevColumns ≠ [] →
            ∃ columns',
              reconcile prevColumns data = Some columns'
              ∧ structure columns' = structure prevColumns
              ∧ existingIds columns' = incomingIds data
              ∧ (NoDup (layout_ids prevColumns) →
                 NoDup (getPostId <$> data) →
                 NoDup (layout_ids columns'))) as Hreconcile.
  { intros prevColumns data Hne.
    destruct (reconcile_is_Some prevColumns data Hne) as [columns' Hrec].
    exists columns'. split_and!; [done| | |].
    - by eapply reconcile_structure.
    - by eapply reconcile_existingIds.
    - by eapply reconcile_NoDup. }
  assert (∀ prevColumns activeId overId,
            ∃ columns',
              applyMove prevColumns activeId overId = Some columns'
              ∧ structure columns' = structure prevColumns
              ∧ existingIds columns' = existingIds prevColumns
              ∧ (NoDup (layout_ids prevColumns) →
                 NoDup (layout_ids columns'))) as Hmove.
  { intros prevColumns activeId overId.
    destruct (applyMove_Some prevColumns activeId overId)
      as (columns' & Hmove & Hstructure & Hperm).
    exists columns'. split_and!; [done..| |].
    - rewrite !existingIds_layout_ids. unfold layout_ids. by rewrite Hperm.
    - unfold layout_ids. by rewrite Hperm. }
  split_and!; [done..| |].
  - intros prevColumns [data|] Hne; simpl; [by apply Hreconcile|].
    by exists prevColumns.
  - intros prevColumns active [overId|]; simpl; [by apply Hmove|].
    by exists prevColumns.
Qed.

Lemma transitions_total_witness :
  createEmptyColumns ≠ []
  ∧ NoDup (layout_ids createEmptyColumns)
  ∧ NoDup (getPostId <$> (mkPost <$> [1; 2; 3]%Z))
  ∧ (∃ columns',
       reconcile createEmptyColumns (mkPost <$> [1; 2; 3]%Z) = Some columns'
       ∧ structure columns' = structure createEmptyColumns
       ∧ existingIds columns' = incomingIds (mkPost <$> [1; 2; 3]%Z)
       ∧ NoDup (layout_ids columns'))
  ∧ (∃ columns',
       onItemsFetched createEmptyColumns (Some (mkPost <$> [1; 2; 3]%Z))
       = Some columns'
       ∧ structure columns' = structure createEmptyColumns)
  ∧ (NoDup (layout_ids (layout_of [[mkPost 1; mkPost 2]; [mkPost 3]; []; []]))
     ∧ ∃ columns',
         applyMove (layout_of [[mkPost 1; mkPost 2]; [mkPost 3]; []; []])
           "2" "3" = Some columns'
         ∧ NoDup (layout_ids columns')).
Proof.
  assert (NoDup (layout_ids createEmptyColumns)) as Hempty by constructor.
  assert (NoDup (getPostId <$> (mkPost <$> [1; 2; 3]%Z))) as Hdata
    by (apply (bool_decide_unpack _); vm_compute; exact I).
  assert (NoDup
            (layout_ids (layout_of [[mkPost 1; mkPost 2]; [mkPost 3]; []; []])))
    as Hlayout by (apply (bool_decide_unpack _); vm_compute; exact I).
  destruct transitions_total as (Hreconcile & Hmove & Heffect & _).
  split_and!; [done..| | |done|].
  - destruct (Hreconcile createEmptyColumns (mkPost <$> [1; 2; 3]%Z))
      as (columns' & Hrec & Hstructure & Hids & Hnodup); [done|].
    exists columns'. split_and!; [done..|]. by apply Hnodup.
  - destruct (Heffect createEmptyColumns (Some (mkPost <$> [1; 2; 3]%Z)))
      as (columns' & Hrec & Hstructure & _); [done|].
    by exists columns'.
  - destruct (Hmove (layout_of [[mkPost 1; mkPost 2]; [mkPost 3]; []; []])
                "2" "3") as (columns' & Hmoved & _ & _ & Hnodup).
    exists columns'. split; [done|]. by apply Hnodup.
Defined.

(** On an incoming list that repeats an identifier the reconciliation
    returns a layout of the fixed structure that covers the list but holds
    the identifier twice, in two columns. *)
Lemma transitions_total_counterexample :
  createEmptyColumns ≠ []
  ∧ reconcile createEmptyColumns [mkPostAt 7 "a"; mkPostAt 7 "b"]
    = Some (layout_of [[mkPostAt 7 "a"]; [mkPostAt 7 "b"]; []; []])
  ∧ structure (layout_of [[mkPostAt 7 "a"]; [mkPostAt 7 "b"]; []; []])
    = structure createEmptyColumns
  ∧ ¬ NoDup (layout_ids
               (layout_of [[mkPostAt 7 "a"]; [mkPostAt 7 "b"]; []; []])).
Proof.
  split_and!.
  - done.
  - vm_compute. reflexivity.
  - vm_compute. reflexivity.
  - intros Hnodup. apply (bool_decide_pack _) in Hnodup.
    vm_compute in Hnodup. exact Hnodup.
Qed.

(** C9.  Whenever the move updater builds new columns, a source and a target
    column were resolved, every column other than these two is what it was,
    and the columns are the same in number, identity and order.  The columns
    are the same, too, after every move and after every reconciliation of a
    layout that has a column. *)
Theorem applyMove_frame :
  (∀ prevColumns activeId overId updatedColumns,
     move_updater prevColumns activeId overId = Some (Replace updatedColumns) →
     ∃ s t,
       sourceColumnIndex prevColumns activeId = Some s
       ∧ targetColumnIndex prevColumns overId = Some t
       ∧ length updatedColumns = length prevColumns
       ∧ structure updatedColumns = structure prevColumns
       ∧ ∀ i, i ≠ s → i ≠ t → updatedColumns !! i = prevColumns !! i)
  ∧ (∀ prevColumns activeId overId,
       ∃ columns',
         applyMove prevColumns activeId overId = Some columns'
         ∧ structure columns' = structure prevColumns)
  ∧ (∀ prevColumns data,
       prevColumns ≠ [] →
       ∃ columns',
         reconcile prevColumns data = Some columns'
         ∧ structure columns' = structure prevColumns).
Proof.
  split_and!.
  - intros prevColumns activeId overId updatedColumns Hmove.
    pose proof (move_updater_structure _ _ _ _ Hmove) as Hstructure.
    destruct (move_updater_cases prevColumns activeId overId)
      as [[Hkeep _]
         |(s & t & sourceColumn & movingIndex & movingPost & targetColumn
           & Hs & Ht & _ & _ & _ & _ & _ & Hmove')].
    { rewrite Hkeep in Hmove. discriminate Hmove. }
    rewrite Hmove' in Hmove. injection Hmove as <-.
    exists s, t. split_and!; [done..|by apply structure_length|done|].
    intros i Hs' Ht'. unfold removed.
    by rewrite !list_lookup_insert_ne.
  - intros prevColumns activeId overId.
    destruct (applyMove_Some prevColumns activeId overId)
      as (columns' & Hmove & Hstructure & _).
    by exists columns'.
  - intros prevColumns data Hne.
    destruct (reconcile_is_Some prevColumns data Hne) as [columns' Hrec].
    exists columns'. split; [done|]. by eapply reconcile_structure.
Qed.

Lemma applyMove_frame_witness :
  move_updater
    (layout_of [[mkPost 1; mkPost 2]; [mkPost 3]; [mkPost 4]; [mkPost 5]])
    "2" "3"
  = Some (Replace
      (layout_of [[mkPost 1]; [mkPost 2; mkPost 3]; [mkPost 4]; [mkPost 5]]))
  ∧ (∃ s t,
      sourceColumnIndex
        (layout_of [[mkPost 1; mkPost 2]; [mkPost 3]; [mkPost 4]; [mkPost 5]])
        "2" = Some s
      ∧ targetColumnIndex
          (layout_of
             [[mkPost 1; mkPost 2]; [mkPost 3]; [mkPost 4]; [mkPost 5]])
          "3" = Some t
      ∧ ∀ i, i ≠ s → i ≠ t →
          layout_of [[mkPost 1]; [mkPost 2; mkPost 3]; [mkPost 4]; [mkPost 5]]
          !! i
          = layout_of
              [[mkPost 1; mkPost 2]; [mkPost 3]; [mkPost 4]; [mkPost 5]]
            !! i)
  ∧ (createEmptyColumns ≠ []
     ∧ ∃ columns',
         reconcile createEmptyColumns (mkPost <$> [1; 2]%Z) = Some columns'
         ∧ structure columns' = structure createEmptyColumns).
Proof.
  assert (move_updater
            (layout_of
               [[mkPost 1; mkPost 2]; [mkPost 3]; [mkPost 4]; [mkPost 5]])
            "2" "3"
          = Some (Replace
              (layout_of
                 [[mkPost 1]; [mkPost 2; mkPost 3]; [mkPost 4]; [mkPost 5]])))
    as Hmove by (vm_compute; reflexivity).
  split_and!.
  - exact Hmove.
  - destruct (proj1 applyMove_frame _ _ _ _ Hmove)
      as (s & t & Hs & Ht & _ & _ & Hframe).
    by exists s, t.
  - done.
  - by apply (proj2 (proj2 applyMove_frame)).
Defined.

(** C10.  Every move conserves the posts of the layout, and with them the
    identifiers, as a multiset: on every input the move returns a layout
    whose posts, taken over all columns, are a permutation of the posts of
    the previous layout.  No post is lost and none is duplicated, whether
    the updater moved a post or kept the previous columns. *)
Theorem applyMove_conserves prevColumns activeId overId :
  ∃ columns',
    applyMove prevColumns activeId overId = Some columns'
    ∧ all_posts columns' ≡ₚ all_posts prevColumns
    ∧ layout_ids columns' ≡ₚ layout_ids prevColumns.
Proof.
  destruct (applyMove_Some prevColumns activeId overId)
    as (columns' & Hmove & _ & Hperm).
  exists columns'. split_and!; [done..|].
  unfold layout_ids. by rewrite Hperm.
Qed.

(** ** Stripping tags *)

Lemma strip_from_no_lt (inTag : bool) (html : string) :
  "<"%char ∉ chars (strip_from inTag html).
Proof.
  revert inTag. induction html as [|c rest IH]; intros inTag.
  - by intros Hin%elem_of_nil.
  - simpl. destruct inTag.
    + case_decide; apply IH.
    + case_decide as Hc; [apply IH|].
      unfold chars. simpl. intros [Heq|Hin]%elem_of_cons; [done|].
      by apply (IH false).
Qed.

Lemma strip_from_plain_app (text more : string) :
  "<"%char ∉ chars text →
  strip_from false (text +:+ more) = text +:+ strip_from false more.
Proof.
  induction text as [|c text IH]; intros Hplain; [done|].
  unfold chars in Hplain. simpl in Hplain.
  apply not_elem_of_cons in Hplain as [Hc Hplain].
  simpl. rewrite decide_False by done. by rewrite IH.
Qed.

Lemma strip_from_plain (text : string) :
  "<"%char ∉ chars text → strip_from false text = text.
Proof.
  induction text as [|c text IH]; intros Hplain; [done|].
  unfold chars in Hplain. simpl in Hplain.
  apply not_elem_of_cons in Hplain as [Hc Hplain].
  simpl. rewrite decide_False by done. by rewrite IH.
Qed.

Lemma strip_from_tag_app (tag more : string) :
  ">"%char ∉ chars tag →
  strip_from true (tag +:+ String ">" more) = strip_from false more.
Proof.
  induction tag as [|c tag IH]; intros Htag; [done|].
  unfold chars in Htag. simpl in Htag.
  apply not_elem_of_cons in Htag as [Hc Htag].
  simpl. rewrite decide_False by done. by apply IH.
Qed.

Lemma strip_from_open (inTag : bool) (text rest : string) :
  ">"%char ∉ chars rest →
  strip_from inTag (text +:+ String "<" rest) = strip_from inTag text.
Proof.
  intros Hrest.
  assert (strip_from true rest = "") as Hdropped.
  { clear text inTag. induction rest as [|c rest IH]; [done|].
    unfold chars in Hrest. simpl in Hrest.
    apply not_elem_of_cons in Hrest as [Hc Hrest].
    simpl. rewrite decide_False by done. by apply IH. }
  revert inTag. induction text as [|c text IH]; intros inTag.
  - simpl. by destruct inTag.
  - simpl. destruct inTag; repeat case_decide; by rewrite ?IH.
Qed.

(** X1.  The text returned by [stripHtml] never contains the character [<],
    whatever the input; so stripping once more changes nothing. *)
Theorem stripHtml_no_lt (html : string) :
  ("<"%char ∉ chars (stripHtml html))
  ∧ stripHtml (stripHtml html) = stripHtml html.
Proof.
  split; [apply strip_from_no_lt|].
  apply strip_from_plain, strip_from_no_lt.
Qed.

(** X2.  A text without [<] is returned as it is, also when it contains
    [>]: a closing bracket alone is not a tag. *)
Theorem stripHtml_plain (text : string) :
  "<"%char ∉ chars text → stripHtml text = text.
Proof.
  intros Hplain. by apply strip_from_plain.
Qed.

Lemma stripHtml_plain_witness :
  ("<"%char ∉ chars "1 > 0 -> ok") ∧ stripHtml "1 > 0 -> ok" = "1 > 0 -> ok".
Proof.
  assert ("<"%char ∉ chars "1 > 0 -> ok") as Hplain
    by (apply (bool_decide_unpack _); vm_compute; exact I).
  split; [exact Hplain|]. by apply stripHtml_plain.
Defined.

(** X3.  A tag that follows plain text is removed, brackets included, and
    the stripping goes on after it: for [text] without [<] and [tag] without
    [>], the string [text<tag>more] gives [text] followed by what [more]
    gives. *)
Theorem stripHtml_tag (text tag more : string) :
  "<"%char ∉ chars text →
  ">"%char ∉ chars tag →
  stripHtml (text +:+ "<" +:+ tag +:+ ">" +:+ more)
  = text +:+ stripHtml more.
Proof.
  intros Htext Htag. unfold stripHtml.
  rewrite strip_from_plain_app by done. f_equal.
  simpl. by apply strip_from_tag_app.
Qed.

Lemma stripHtml_tag_witness :
  ("<"%char ∉ chars "Hello ")
  ∧ (">"%char ∉ chars "a href='x'")
  ∧ stripHtml ("Hello " +:+ "<" +:+ "a href='x'" +:+ ">" +:+ "world</a>")
    = "Hello world".
Proof.
  assert ("<"%char ∉ chars "Hello ") as Htext
    by (apply (bool_decide_unpack _); vm_compute; exact I).
  assert (">"%char ∉ chars "a href='x'") as Htag
    by (apply (bool_decide_unpack _); vm_compute; exact I).
  split_and!; [done..|].
  rewrite (stripHtml_tag _ _ _ Htext Htag). vm_compute. reflexivity.
Defined.

(** X4.  A [<] that is never closed swallows the rest of the string: when
    no [>] follows it, everything from the [<] on is dropped, so a bare
    less-than sign in a title cuts the title there. *)
Theorem stripHtml_unclosed (text rest : string) :
  ">"%char ∉ chars rest →
  stripHtml (text +:+ "<" +:+ rest) = stripHtml text.
Proof. intros Hrest. unfold stripHtml. simpl. by apply strip_from_open. Qed.

Lemma stripHtml_unclosed_witness :
  (">"%char ∉ chars " 5 wins")
  ∧ stripHtml ("3 " +:+ "<" +:+ " 5 wins") = "3 ".
Proof.
  assert (">"%char ∉ chars " 5 wins") as Hrest
    by (apply (bool_decide_unpack _); vm_compute; exact I).
  split; [exact Hrest|].
  rewrite (stripHtml_unclosed _ _ Hrest). vm_compute. reflexivity.
Defined.

(** ** The featured image of a post *)

Lemma truthy_Some (value : option string) (text : string) :
  truthy value = Some text ↔ value = Some text ∧ text ≠ "".
Proof.
  unfold truthy. destruct value as [text'|]; [|by split; [|intros [? _]]].
  case_decide as Hempty; split.
  - done.
  - intros [[= ->] Hne]. done.
  - by intros [= ->].
  - by intros [[= ->] _].
Qed.

Lemma truthy_None (value : option string) :
  truthy value = None ↔ value = None ∨ value = Some "".
Proof.
  unfold truthy. destruct value as [text|]; [|by split; [left|]].
  case_decide as Hempty; split.
  - intros _. right. by rewrite Hempty.
  - done.
  - done.
  - intros [?|[= ->]]; done.
Qed.

(** X5.  When [getFeaturedImage] returns an image, the post has a first
    featured media whose [source_url] is the [src] of the image and is not
    empty; the [alt] of the image is the [alt_text] of that media when it has
    a non-empty one, and otherwise the title of the post with its tags
    stripped, which holds no [<].  It returns [null] exactly when the post
    has no first featured media or that media has no [source_url] or an
    empty one. *)
Theorem getFeaturedImage_spec :
  (∀ post image,
     getFeaturedImage post = Some image →
     ∃ media rest,
       embedded post = Some (media :: rest)
       ∧ source_url media = Some (src image)
       ∧ src image ≠ ""
       ∧ ((alt_text media = Some (alt image) ∧ alt image ≠ "")
          ∨ ((alt_text media = None ∨ alt_text media = Some "")
             ∧ alt image = stripHtml (title post)
             ∧ "<"%char ∉ chars (alt image))))
  ∧ (∀ post,
       getFeaturedImage post = None ↔
       embedded post = None ∨ embedded post = Some []
       ∨ ∃ media rest,
           embedded post = Some (media :: rest)
           ∧ (source_url media = None ∨ source_url media = Some "")).
Proof.
  split.
  - intros post image. unfold getFeaturedImage.
    destruct (embedded post) as [[|media rest]|]; simpl; [done| |done].
    destruct (truthy (source_url media)) as [url|] eqn:Hurl; [|done].
    apply truthy_Some in Hurl as [Hurl Hne].
    intros [= <-]. exists media, rest. simpl. split_and!; [done..|].
    destruct (truthy (alt_text media)) as [text|] eqn:Halt.
    + left. by apply truthy_Some in Halt.
    + right. apply truthy_None in Halt. split_and!; [done..|].
      apply strip_from_no_lt.
  - intros post. unfold getFeaturedImage.
    destruct (embedded post) as [[|media rest]|]; simpl.
    + split; [by right; left|done].
    + destruct (truthy (source_url media)) as [url|] eqn:Hurl.
      * apply truthy_Some in Hurl as [Hurl Hne]. split; [done|].
        intros [?|[?|(media' & rest' & [= <- <-] & [Hnone|Hempty])]];
          try done; rewrite Hurl in *; by simplify_eq.
      * apply truthy_None in Hurl. split; [|done].
        intros _. right. right. by exists media, rest.
    + split; [by left|done].
Qed.

Lemma getFeaturedImage_spec_witness :
  getFeaturedImage
    {| post_id := 7; link := ""; title := "<b>News</b>"; excerpt := "";
       date := "";
       embedded := Some [{| source_url := Some "https://s.w.org/i.png";
                            alt_text := Some "" |}] |}
  = Some {| src := "https://s.w.org/i.png"; alt := "News" |}
  ∧ ∃ media rest,
      Some [{| source_url := Some "https://s.w.org/i.png";
               alt_text := Some "" |}] = Some (media :: rest)
      ∧ source_url media = Some "https://s.w.org/i.png".
Proof.
  assert (getFeaturedImage
            {| post_id := 7; link := ""; title := "<b>News</b>";
               excerpt := ""; date := "";
               embedded := Some [{| source_url := Some "https://s.w.org/i.png";
                                    alt_text := Some "" |}] |}
          = Some {| src := "https://s.w.org/i.png"; alt := "News" |})
    as Himage by (vm_compute; reflexivity).
  split; [exact Himage|].
  destruct (proj1 getFeaturedImage_spec _ _ Himage)
    as (media & rest & Hembedded & Hurl & _).
  by exists media, rest.
Defined.

(** ** Whether the board has posts *)

Lemma hasPosts_all_posts columns : hasPosts columns ↔ all_posts columns ≠ [].
Proof.
  unfold hasPosts, some. rewrite Exists_exists. split.
  - intros (column & Hcolumn & Hlen) Hnil.
    destruct (posts column) as [|post rest] eqn:Hposts; [simpl in Hlen; lia|].
    assert (post ∈ all_posts columns) as Hin.
    { apply (elem_of_all_posts _ column); [done|]. rewrite Hposts. by left. }
    rewrite Hnil in Hin. by apply elem_of_nil in Hin.
  - intros Hne. destruct (all_posts columns) as [|post rest] eqn:Hall; [done|].
    assert (post ∈ all_posts columns) as Hin by (rewrite Hall; by left).
    unfold all_posts in Hin.
    apply list_elem_of_bind in Hin as (column & Hpost & Hcolumn).
    exists column. split; [done|].
    destruct (posts column); [by apply elem_of_nil in Hpost|simpl; lia].
Qed.

(** X6.  After a reconciliation the board has posts exactly when the
    incoming list is not empty, whatever the columns held before: a first
    non-empty fetch brings up the board, and an empty fetch takes it down. *)
Theorem hasPosts_after_reconcile prevColumns data :
  prevColumns ≠ [] →
  ∃ columns',
    reconcile prevColumns data = Some columns'
    ∧ (hasPosts columns' ↔ data ≠ []).
Proof.
  intros Hne.
  destruct (reconcile_is_Some prevColumns data Hne) as [columns' Hrec].
  exists columns'. split; [done|]. rewrite hasPosts_all_posts. split.
  - intros Hposts ->.
    destruct (all_posts columns') as [|post rest] eqn:Hall; [done|].
    assert (getPostId post ∈ layout_ids columns') as Hin.
    { unfold layout_ids. rewrite Hall. by left. }
    apply (reconcile_ids _ _ _ _ Hrec) in Hin. by apply elem_of_nil in Hin.
  - intros Hdata Hall. destruct data as [|post rest]; [done|].
    assert (getPostId post ∈ layout_ids columns') as Hin.
    { apply (reconcile_ids _ _ _ _ Hrec). by left. }
    unfold layout_ids in Hin. rewrite Hall in Hin.
    by apply elem_of_nil in Hin.
Qed.

Lemma hasPosts_after_reconcile_witness :
  createEmptyColumns ≠ []
  ∧ ∃ columns',
      reconcile createEmptyColumns [mkPost 1] = Some columns'
      ∧ hasPosts columns'.
Proof.
  split; [done|].
  destruct (hasPosts_after_reconcile createEmptyColumns [mkPost 1])
    as (columns' & Hrec & Hposts); [done|].
  exists columns'. split; [done|]. by apply Hposts.
Defined.

(** X7.  A drag never changes whether the board has posts: after every move
    some column holds a post exactly when one did before. *)
Theorem hasPosts_after_move prevColumns activeId overId :
  ∃ columns',
    applyMove prevColumns activeId overId = Some columns'
    ∧ (hasPosts columns' ↔ hasPosts prevColumns).
Proof.
  destruct (applyMove_Some prevColumns activeId overId)
    as (columns' & Hmove & _ & Hperm).
  exists columns'. split; [done|]. rewrite !hasPosts_all_posts.
  split; intros Hne Hnil; apply Hne.
  - rewrite Hnil in Hperm. by apply Permutation_nil_r in Hperm.
  - rewrite Hnil in Hperm. symmetry in Hperm.
    by apply Permutation_nil_r in Hperm.
Qed.

(** ** Reconciliation: edge cases *)

(** X8.  Reconciling with an empty list empties every column and keeps the
    columns themselves; it does so on any array of columns, without raising,
    and leaves a board without posts. *)
Theorem reconcile_empty_list prevColumns :
  reconcile prevColumns []
  = Some ((λ column, with_posts column []) <$> prevColumns)
  ∧ ¬ hasPosts ((λ column, with_posts column []) <$> prevColumns).
Proof.
  split.
  - rewrite reconcile_no_new by (by intros post Hin%elem_of_nil).
    f_equal. unfold filtered. apply list_fmap_ext. intros i column Hi.
    f_equal. apply filter_none. intros post _ Hin.
    by apply elem_of_incomingIds, elem_of_nil in Hin.
  - rewrite hasPosts_all_posts. intros Hne. apply Hne.
    unfold all_posts. clear Hne.
    induction prevColumns as [|column prevColumns IH]; [done|].
    csimpl. exact IH.
Qed.

(** X9.  The reconciliation never refreshes a placed post: every post of the
    returned layout whose identifier was in the previous layout is a post of
    the previous layout, so an incoming post that shares its identifier with
    a placed one but differs from every placed post, a new version of it,
    does not enter the layout. *)
Theorem reconcile_keeps_placed_posts prevColumns data :
  prevColumns ≠ [] →
  ∃ columns',
    reconcile prevColumns data = Some columns'
    ∧ (∀ post, post ∈ all_posts columns' →
               getPostId post ∈ layout_ids prevColumns →
               post ∈ all_posts prevColumns)
    ∧ (∀ post, post ∈ data →
               getPostId post ∈ layout_ids prevColumns →
               post ∉ all_posts prevColumns →
               post ∉ all_posts columns').
Proof.
  intros Hne.
  destruct (reconcile_is_Some prevColumns data Hne) as [columns' Hrec].
  exists columns'. split; [done|].
  assert (∀ post, post ∈ all_posts columns' →
                  getPostId post ∈ layout_ids prevColumns →
                  post ∈ all_posts prevColumns) as Hkept.
  { intros post Hin Hplaced.
    pose proof (reconcile_grown _ _ _ Hrec) as [_ Hperm].
    rewrite Hperm in Hin. apply elem_of_app in Hin as [Hin|Hin].
    - rewrite all_posts_filtered in Hin.
      by apply list_elem_of_filter in Hin as [_ Hin].
    - by apply newPosts_fresh in Hin as [_ Hfresh]. }
  split; [done|]. intros post _ Hplaced Hnot Hin. by apply Hnot, Hkept.
Qed.

Lemma reconcile_keeps_placed_posts_witness :
  layout_of [[mkPostAt 7 "old"]; []; []; []] ≠ []
  ∧ ∃ columns',
      reconcile (layout_of [[mkPostAt 7 "old"]; []; []; []])
        [mkPostAt 7 "new"; mkPost 8] = Some columns'
      ∧ mkPostAt 7 "new" ∉ all_posts columns'.
Proof.
  split; [done|].
  destruct (reconcile_keeps_placed_posts
              (layout_of [[mkPostAt 7 "old"]; []; []; []])
              [mkPostAt 7 "new"; mkPost 8])
    as (columns' & Hrec & _ & Hnew); [done|].
  exists columns'. split; [done|]. apply Hnew.
  - by left.
  - vm_compute. by left.
  - vm_compute. intros [Heq|Hin%elem_of_nil]%elem_of_cons; [|done].
    discriminate Heq.
Defined.

(** ** Reconciliation: how even the columns stay *)

Lemma push_post_spread d columns post columns' :
  1 ≤ d → spread_at_most d columns →
  push_post columns post = Some columns' →
  spread_at_most d columns'.
Proof.
  intros Hd Hspread Hpush.
  destruct columns as [|c0 rest] eqn:Hcolumns; [done|]. rewrite <-Hcolumns in *.
  destruct (push_post_Some columns post) as (t & column & Hfirst & Ht & Hpush');
    [by rewrite Hcolumns|].
  rewrite Hpush in Hpush'. injection Hpush' as ->.
  destruct Hfirst as (column' & Ht' & Hmin & _).
  rewrite Ht in Ht'. injection Ht' as <-.
  intros i j ci cj Hi Hj.
  apply list_lookup_insert_Some in Hi as [(-> & <- & _)|[Hti Hi]];
    apply list_lookup_insert_Some in Hj as [(Heq & <- & _)|[Htj Hj]];
    simpl; rewrite ?length_app; simpl.
  - lia.
  - specialize (Hmin j cj Hj). lia.
  - specialize (Hspread i t ci column Hi Ht). lia.
  - by apply (Hspread i j).
Qed.

Lemma forEach_push_post_spread d added columns columns' :
  1 ≤ d → spread_at_most d columns →
  forEach push_post added columns = Some columns' →
  spread_at_most d columns'.
Proof.
  intros Hd. revert columns.
  induction added as [|post added IH]; intros columns Hspread Heach.
  - simpl in Heach. by injection Heach as <-.
  - simpl in Heach.
    destruct (push_post columns post) as [columns1|] eqn:Hpush; [|done].
    simpl in Heach. apply (IH columns1); [|done].
    by apply (push_post_spread d columns post).
Qed.

(** X10.  The pushes keep the columns as even as they were: if, once the
    stale posts are filtered out, no column holds more than [d] posts more
    than another, for some [d] of at least one, the same is true of the
    returned layout.  In particular the first fetch, on the empty columns,
    returns columns whose numbers of posts differ by at most one. *)
Theorem reconcile_balanced :
  (∀ d prevColumns data,
     1 ≤ d → prevColumns ≠ [] →
     spread_at_most d (filtered prevColumns data) →
     ∃ columns',
       reconcile prevColumns data = Some columns'
       ∧ spread_at_most d columns')
  ∧ (∀ data,
       ∃ columns',
         reconcile createEmptyColumns data = Some columns'
         ∧ spread_at_most 1 columns').
Proof.
  assert (∀ d prevColumns data,
            1 ≤ d → prevColumns ≠ [] →
            spread_at_most d (filtered prevColumns data) →
            ∃ columns',
              reconcile prevColumns data = Some columns'
              ∧ spread_at_most d columns') as Hgeneral.
  { intros d prevColumns data Hd Hne Hspread.
    destruct (reconcile_is_Some prevColumns data Hne) as [columns' Hrec].
    exists columns'. split; [done|].
    rewrite reconcile_forEach in Hrec.
    by eapply forEach_push_post_spread. }
  split; [done|]. intros data. apply Hgeneral; [done..|].
  intros i j ci cj Hi Hj. rewrite lookup_filtered in Hi.
  destruct (createEmptyColumns !! i) as [c|] eqn:Hc; [|done].
  injection Hi as <-. simpl.
  apply list_elem_of_lookup_2 in Hc.
  assert (posts c = []) as ->; [|simpl; lia].
  vm_compute in Hc.
  repeat (apply elem_of_cons in Hc as [->|Hc]; [done|]).
  by apply elem_of_nil in Hc.
Qed.

Lemma reconcile_balanced_witness :
  1 ≤ 2
  ∧ layout_of [[mkPost 1; mkPost 2]; []; [mkPost 3]; []] ≠ []
  ∧ spread_at_most 2
      (filtered (layout_of [[mkPost 1; mkPost 2]; []; [mkPost 3]; []])
         (mkPost <$> [1; 2; 3; 4; 5; 6]%Z))
  ∧ ∃ columns',
      reconcile (layout_of [[mkPost 1; mkPost 2]; []; [mkPost 3]; []])
        (mkPost <$> [1; 2; 3; 4; 5; 6]%Z) = Some columns'
      ∧ spread_at_most 2 columns'.
Proof.
  assert (spread_at_most 2
            (filtered (layout_of [[mkPost 1; mkPost 2]; []; [mkPost 3]; []])
               (mkPost <$> [1; 2; 3; 4; 5; 6]%Z))) as Hspread.
  { intros i j ci cj Hi Hj.
    apply list_elem_of_lookup_2 in Hi, Hj. vm_compute in Hi, Hj.
    repeat (apply elem_of_cons in Hi as [->|Hi];
            [repeat (apply elem_of_cons in Hj as [->|Hj]; [simpl; lia|]);
             by apply elem_of_nil in Hj|]).
    by apply elem_of_nil in Hi. }
  split_and!; [lia|done|exact Hspread|].
  apply (proj1 reconcile_balanced); [lia|done|exact Hspread].
Defined.

(** ** The component over a sequence of events *)

Lemma forEach_app {A S} (f : S → A → option S) (l k : list A) (st : S) :
  forEach f (l ++ k) st = forEach f l st ≫= forEach f k.
Proof.
  revert st. induction l as [|x l IH]; intros st; [done|].
  simpl. destruct (f st x) as [st'|]; [apply IH|done].
Qed.

Lemma fixed_columns_structure columns columns' :
  structure columns' = structure columns →
  fixed_columns columns → fixed_columns columns'.
Proof. unfold fixed_columns. by intros ->. Qed.

Lemma layout_ids_Permutation columns columns' :
  all_posts columns' ≡ₚ all_posts columns →
  layout_ids columns' ≡ₚ layout_ids columns.
Proof. unfold layout_ids. by intros ->. Qed.

(** One event on a layout of the fixed columns. *)
Lemma step_fixed columns e :
  fixed_columns columns →
  ∃ columns',
    step columns e = Some columns'
    ∧ fixed_columns columns'
    ∧ (NoDup (layout_ids columns) → fetched_distinct e →
       NoDup (layout_ids columns')).
Proof.
  intros Hfixed. destruct e as [[fetched|]|active [overId|]]; simpl.
  - destruct (reconcile_is_Some columns fetched) as [columns' Hrec];
      [by apply fixed_columns_ne_nil|].
    exists columns'. split_and!; [done| |].
    + eapply fixed_columns_structure; [|done]. by eapply reconcile_structure.
    + intros Hnodup Hdistinct. by eapply reconcile_NoDup.
  - by exists columns.
  - destruct (applyMove_Some columns active overId)
      as (columns' & Hmove & Hstructure & Hperm).
    exists columns'. split_and!; [done| |].
    + by eapply fixed_columns_structure.
    + intros Hnodup _. by rewrite (layout_ids_Permutation _ _ Hperm).
  - by exists columns.
Qed.

Lemma run_fixed events columns :
  fixed_columns columns →
  ∃ columns',
    run events columns = Some columns'
    ∧ fixed_columns columns'
    ∧ (NoDup (layout_ids columns) → Forall fetched_distinct events →
       NoDup (layout_ids columns')).
Proof.
  revert columns. induction events as [|e events IH]; intros columns Hfixed.
  - by exists columns.
  - destruct (step_fixed columns e Hfixed)
      as (columns1 & Hstep & Hfixed1 & Hnodup1).
    destruct (IH columns1 Hfixed1) as (columns' & Hrun & Hfixed' & Hnodup').
    exists columns'. unfold run in *. simpl. rewrite Hstep. simpl.
    split_and!; [done..|].
    intros Hnodup [Hdistinct Hrest]%Forall_cons. auto.
Qed.

(** A drag leaves the set of identifiers of the layout as it is. *)
Lemma step_drag_existingIds columns e :
  is_drag e →
  ∃ columns',
    step columns e = Some columns'
    ∧ existingIds columns' = existingIds columns.
Proof.
  destruct e as [fetched|active [overId|]]; [done| |]; intros _; simpl.
  - destruct (applyMove_Some columns active overId)
      as (columns' & Hmove & _ & Hperm).
    exists columns'. split; [done|].
    rewrite !existingIds_layout_ids.
    by rewrite (layout_ids_Permutation _ _ Hperm).
  - by exists columns.
Qed.

Lemma run_drags_existingIds drags columns :
  Forall is_drag drags →
  ∃ columns',
    run drags columns = Some columns'
    ∧ existingIds columns' = existingIds columns.
Proof.
  revert columns. induction drags as [|e drags IH]; intros columns Hdrags.
  - by exists columns.
  - apply Forall_cons in Hdrags as [Hdrag Hdrags].
    destruct (step_drag_existingIds columns e Hdrag)
      as (columns1 & Hstep & Hids1).
    destruct (IH columns1 Hdrags) as (columns' & Hrun & Hids').
    exists columns'. unfold run in *. simpl. rewrite Hstep. simpl.
    split; [done|]. congruence.
Qed.

(** X11.  From the columns the component starts with, no sequence of fetches
    and drags ever raises, and the state always has the four columns of
    [createEmptyColumns], in their order; if no fetched list holds an
    identifier twice, no identifier is ever twice on the board. *)
Theorem run_invariant events :
  ∃ columns,
    run events createEmptyColumns = Some columns
    ∧ fixed_columns columns
    ∧ (Forall fetched_distinct events → NoDup (layout_ids columns)).
Proof.
  destruct (run_fixed events createEmptyColumns) as (columns & Hrun & ? & Hnodup);
    [done|].
  exists columns. split_and!; [done..|].
  intros Hdistinct. apply Hnodup; [|done]. constructor.
Qed.

Lemma run_invariant_witness :
  Forall fetched_distinct
    [ItemsFetched None; ItemsFetched (Some (mkPost <$> [1; 2; 3]%Z));
     DragEnd "1" (Some "2"); DragEnd "3" None;
     ItemsFetched (Some (mkPost <$> [3; 4]%Z)); DragEnd "4" (Some "column-3")]
  ∧ ∃ columns,
      run [ItemsFetched None; ItemsFetched (Some (mkPost <$> [1; 2; 3]%Z));
           DragEnd "1" (Some "2"); DragEnd "3" None;
           ItemsFetched (Some (mkPost <$> [3; 4]%Z));
           DragEnd "4" (Some "column-3")] createEmptyColumns = Some columns
      ∧ fixed_columns columns
      ∧ NoDup (layout_ids columns).
Proof.
  assert (Forall fetched_distinct
            [ItemsFetched None; ItemsFetched (Some (mkPost <$> [1; 2; 3]%Z));
             DragEnd "1" (Some "2"); DragEnd "3" None;
             ItemsFetched (Some (mkPost <$> [3; 4]%Z));
             DragEnd "4" (Some "column-3")]) as Hdistinct.
  { repeat constructor; simpl;
      apply (bool_decide_unpack _); vm_compute; exact I. }
  split; [exact Hdistinct|].
  destruct (run_invariant
              [ItemsFetched None; ItemsFetched (Some (mkPost <$> [1; 2; 3]%Z));
               DragEnd "1" (Some "2"); DragEnd "3" None;
               ItemsFetched (Some (mkPost <$> [3; 4]%Z));
               DragEnd "4" (Some "column-3")])
    as (columns & Hrun & Hfixed & Hnodup).
  exists columns. split_and!; [done..|]. by apply Hnodup.
Defined.

(** X12.  At any time the identifiers on the board are, as a set, those of
    the list fetched last: after any earlier events, a fetched list and any
    number of drags, the set of identifiers of the columns equals the set of
    identifiers of that list. *)
Theorem run_coverage earlier data drags :
  Forall is_drag drags →
  ∃ columns,
    run (earlier ++ ItemsFetched (Some data) :: drags) createEmptyColumns
    = Some columns
    ∧ existingIds columns = incomingIds data.
Proof.
  intros Hdrags.
  destruct (run_fixed earlier createEmptyColumns) as (columns0 & Hrun0 & Hfixed0 & _);
    [done|].
  destruct (reconcile_is_Some columns0 data) as [columns1 Hrec];
    [by apply fixed_columns_ne_nil|].
  destruct (run_drags_existingIds drags columns1 Hdrags)
    as (columns & Hrun & Hids).
  exists columns. split.
  - unfold run in *. rewrite forEach_app, Hrun0. simpl. rewrite Hrec. simpl.
    exact Hrun.
  - rewrite Hids. by eapply reconcile_existingIds.
Qed.

Lemma run_coverage_witness :
  Forall is_drag [DragEnd "2" (Some "column-3"); DragEnd "9" (Some "1")]
  ∧ ∃ columns,
      run ([ItemsFetched (Some (mkPost <$> [5; 6]%Z)); DragEnd "5" (Some "6")]
           ++ ItemsFetched (Some (mkPost <$> [1; 2; 6]%Z))
              :: [DragEnd "2" (Some "column-3"); DragEnd "9" (Some "1")])
        createEmptyColumns = Some columns
      ∧ existingIds columns = incomingIds (mkPost <$> [1; 2; 6]%Z).
Proof.
  assert (Forall is_drag [DragEnd "2" (Some "column-3"); DragEnd "9" (Some "1")])
    as Hdrags by (by repeat constructor).
  split; [exact Hdrags|]. by apply run_coverage.
Defined.

(** X13.  Until a list has been fetched nothing changes the state: drags on
    the empty board, drags without a target and effects without data all
    leave the columns of [createEmptyColumns] as they are. *)
Theorem run_before_first_fetch events :
  Forall (λ e, e = ItemsFetched None ∨ is_drag e) events →
  run events createEmptyColumns = Some createEmptyColumns.
Proof.
  induction events as [|e events IH]; intros Hevents; [done|].
  apply Forall_cons in Hevents as [He Hevents].
  unfold run in *. simpl.
  assert (step createEmptyColumns e = Some createEmptyColumns) as ->.
  { destruct e as [[fetched|]|active [overId|]]; simpl.
    - by destruct He.
    - done.
    - unfold applyMove.
      rewrite move_updater_KeepPrev; [done|]. left.
      apply sourceColumnIndex_None. by intros Hin%elem_of_nil.
    - done. }
  simpl. by apply IH.
Qed.

Lemma run_before_first_fetch_witness :
  Forall (λ e, e = ItemsFetched None ∨ is_drag e)
    [DragEnd "1" (Some "column-2"); ItemsFetched None; DragEnd "1" None]
  ∧ run [DragEnd "1" (Some "column-2"); ItemsFetched None; DragEnd "1" None]
      createEmptyColumns = Some createEmptyColumns.
Proof.
  assert (Forall (λ e, e = ItemsFetched None ∨ is_drag e)
            [DragEnd "1" (Some "column-2"); ItemsFetched None;
             DragEnd "1" None]) as Hevents.
  { repeat constructor; (by left) || (by right). }
  split; [exact Hevents|]. by apply run_before_first_fetch.
Defined.

(** ** Move application: drops within one column and on a column *)

Lemma NoDup_middle {A} (l1 l2 : list A) (x : A) :
  NoDup (l1 ++ x :: l2) → (x ∉ l1) ∧ (x ∉ l2).
Proof.
  intros (_ & Hdisjoint & [Hx _]%NoDup_cons)%NoDup_app. split; [|done].
  intros Hin. apply (Hdisjoint x Hin). by left.
Qed.

Lemma NoDup_two {A} (l1 l2 l3 : list A) (x y : A) :
  NoDup (l1 ++ x :: l2 ++ y :: l3) →
  (x ∉ l1) ∧ (x ∉ l2) ∧ (y ∉ l1) ∧ (y ∉ l2) ∧ x ≠ y.
Proof.
  intros Hnodup.
  pose proof (NoDup_middle _ _ _ Hnodup) as [Hx1 Hx].
  apply not_elem_of_app in Hx as [Hx2 [Hxy _]%not_elem_of_cons].
  assert (l1 ++ x :: l2 ++ y :: l3 = (l1 ++ x :: l2) ++ y :: l3) as Heq
    by (by rewrite <-(assoc_L (++))).
  rewrite Heq in Hnodup. apply NoDup_middle in Hnodup as [Hy _].
  apply not_elem_of_app in Hy as [Hy1 [_ Hy2]%not_elem_of_cons].
  done.
Qed.

(** A drop on a target that resolves to the source column itself. *)
Lemma move_updater_same_column prevColumns activeId overId s sourceColumn
    pre movingPost suf :
  sourceColumnIndex prevColumns activeId = Some s →
  targetColumnIndex prevColumns overId = Some s →
  overId ≠ activeId →
  prevColumns !! s = Some sourceColumn →
  posts sourceColumn = pre ++ movingPost :: suf →
  getPostId movingPost = activeId →
  activeId ∉ getPostId <$> pre →
  move_updater prevColumns activeId overId
  = Some (Replace
      (<[s := with_posts sourceColumn
                (splice_insert (insertIndex (pre ++ suf) overId) movingPost
                   (pre ++ suf))]> prevColumns)).
Proof.
  intros Hs Ht Hne Hsource Hposts Hid Hpre.
  rewrite (move_updater_Replace _ _ _ s s sourceColumn pre movingPost suf
             (with_posts sourceColumn (pre ++ suf)) Hs Ht
             (λ H, Hne (proj2 H)) Hsource Hposts Hid Hpre).
  - unfold dropped. rewrite decide_False by (by intros [? _]).
    by rewrite list_insert_insert_eq.
  - apply list_lookup_insert_eq. by eapply lookup_lt_Some.
Qed.

(** On the fixed columns the identity of a column resolves to that column. *)
Lemma targetColumnIndex_column columns t column :
  fixed_columns columns → columns !! t = Some column →
  targetColumnIndex columns (column_id column) = Some t.
Proof.
  intros Hfixed Ht. apply findIndex_Some. exists column.
  split_and!; [done|by left|].
  intros j cj Hj Hlt [Hid|Hsome].
  - assert (NoDup (column_id <$> columns)) as Hnodup.
    { assert (column_id <$> columns = fst <$> structure columns) as ->.
      { unfold structure. rewrite <-list_fmap_compose.
        by apply list_fmap_ext. }
      rewrite Hfixed. apply (bool_decide_unpack _). vm_compute. exact I. }
    assert (j = t) as ->; [|lia].
    apply (NoDup_lookup _ _ _ (column_id column) Hnodup).
    + by rewrite list_lookup_fmap, Hj, <-Hid.
    + by rewrite list_lookup_fmap, Ht.
  - apply Exists_exists in Hsome as (post & _ & Hpost).
    apply (getPostId_not_column_id columns post Hfixed).
    rewrite Hpost. apply list_elem_of_fmap_2.
    by eapply list_elem_of_lookup_2.
Qed.

(** The dragged post is above the post it is dropped over. *)
Lemma move_updater_over_later prevColumns s sourceColumn
    pre movingPost mid overPost suf :
  fixed_columns prevColumns →
  NoDup (layout_ids prevColumns) →
  prevColumns !! s = Some sourceColumn →
  posts sourceColumn = pre ++ movingPost :: mid ++ overPost :: suf →
  move_updater prevColumns (getPostId movingPost) (getPostId overPost)
  = Some (Replace
      (<[s := with_posts sourceColumn
                (pre ++ mid ++ movingPost :: overPost :: suf)]> prevColumns)).
Proof.
  intros Hfixed Hnodup Hs Hposts.
  pose proof (NoDup_column_ids _ _ _ Hnodup Hs) as Hcolumn.
  rewrite Hposts, fmap_app, fmap_cons, fmap_app, fmap_cons in Hcolumn.
  apply NoDup_two in Hcolumn as (Hp1 & Hp2 & Hq1 & Hq2 & Hne).
  assert (getPostId movingPost ∈ getPostId <$> posts sourceColumn) as Hp.
  { rewrite Hposts, fmap_app, fmap_cons. apply elem_of_app. right. by left. }
  assert (getPostId overPost ∈ getPostId <$> posts sourceColumn) as Hq.
  { rewrite Hposts, fmap_app, fmap_cons, fmap_app, fmap_cons.
    apply elem_of_app. right. right. apply elem_of_app. right. by left. }
  rewrite (move_updater_same_column _ _ _ s sourceColumn pre movingPost
             (mid ++ overPost :: suf)
             (sourceColumnIndex_NoDup _ _ _ _ Hnodup Hs Hp));
    [|rewrite targetColumnIndex_self by (by apply getPostId_not_column_id);
      by apply sourceColumnIndex_NoDup with sourceColumn
     |congruence|done..].
  do 3 f_equal. unfold insertIndex.
  rewrite (assoc_L (++) pre mid).
  rewrite (findIndex_middle _ (pre ++ mid) overPost suf);
    [|apply not_elem_of_ids_Forall;
      by rewrite fmap_app, not_elem_of_app|done].
  rewrite splice_insert_middle. by rewrite <-(assoc_L (++)).
Qed.

(** The dragged post is below the post it is dropped over. *)
Lemma move_updater_over_earlier prevColumns s sourceColumn
    pre movingPost mid overPost suf :
  fixed_columns prevColumns →
  NoDup (layout_ids prevColumns) →
  prevColumns !! s = Some sourceColumn →
  posts sourceColumn = pre ++ overPost :: mid ++ movingPost :: suf →
  move_updater prevColumns (getPostId movingPost) (getPostId overPost)
  = Some (Replace
      (<[s := with_posts sourceColumn
                (pre ++ movingPost :: overPost :: mid ++ suf)]> prevColumns)).
Proof.
  intros Hfixed Hnodup Hs Hposts.
  pose proof (NoDup_column_ids _ _ _ Hnodup Hs) as Hcolumn.
  rewrite Hposts, fmap_app, fmap_cons, fmap_app, fmap_cons in Hcolumn.
  apply NoDup_two in Hcolumn as (Hq1 & Hq2 & Hp1 & Hp2 & Hne).
  assert (getPostId movingPost ∈ getPostId <$> posts sourceColumn) as Hp.
  { rewrite Hposts, fmap_app, fmap_cons, fmap_app, fmap_cons.
    apply elem_of_app. right. right. apply elem_of_app. right. by left. }
  assert (getPostId overPost ∈ getPostId <$> posts sourceColumn) as Hq.
  { rewrite Hposts, fmap_app, fmap_cons. apply elem_of_app. right. by left. }
  assert (posts sourceColumn = (pre ++ overPost :: mid) ++ movingPost :: suf)
    as Hposts' by (by rewrite Hposts, <-(assoc_L (++))).
  rewrite (move_updater_same_column _ _ _ s sourceColumn
             (pre ++ overPost :: mid) movingPost suf
             (sourceColumnIndex_NoDup _ _ _ _ Hnodup Hs Hp));
    [|rewrite targetColumnIndex_self by (by apply getPostId_not_column_id);
      by apply sourceColumnIndex_NoDup with sourceColumn
     |congruence|done..
     |by rewrite fmap_app, fmap_cons, not_elem_of_app, not_elem_of_cons].
  do 3 f_equal. unfold insertIndex.
  rewrite <-(assoc_L (++) pre). simpl.
  rewrite (findIndex_middle _ pre overPost (mid ++ suf));
    [|by apply not_elem_of_ids_Forall|done].
  by rewrite splice_insert_middle.
Qed.

(** X14.  On a layout of the fixed columns in which no identifier occurs
    twice, a drop over another post of the same column puts the dragged post
    immediately before that post, whether that post was below or above it;
    the other posts of the column keep their order. *)
Theorem applyMove_same_column :
  (∀ prevColumns s sourceColumn pre movingPost mid overPost suf,
     fixed_columns prevColumns →
     NoDup (layout_ids prevColumns) →
     prevColumns !! s = Some sourceColumn →
     posts sourceColumn = pre ++ movingPost :: mid ++ overPost :: suf →
     applyMove prevColumns (getPostId movingPost) (getPostId overPost)
     = Some (<[s := with_posts sourceColumn
                       (pre ++ mid ++ movingPost :: overPost :: suf)]>
               prevColumns))
  ∧ (∀ prevColumns s sourceColumn pre movingPost mid overPost suf,
       fixed_columns prevColumns →
       NoDup (layout_ids prevColumns) →
       prevColumns !! s = Some sourceColumn →
       posts sourceColumn = pre ++ overPost :: mid ++ movingPost :: suf →
       applyMove prevColumns (getPostId movingPost) (getPostId overPost)
       = Some (<[s := with_posts sourceColumn
                         (pre ++ movingPost :: overPost :: mid ++ suf)]>
                 prevColumns)).
Proof.
  split.
  - intros prevColumns s sourceColumn pre movingPost mid overPost suf
      Hfixed Hnodup Hs Hposts.
    unfold applyMove.
    by rewrite (move_updater_over_later _ s sourceColumn pre movingPost
                  mid overPost suf).
  - intros prevColumns s sourceColumn pre movingPost mid overPost suf
      Hfixed Hnodup Hs Hposts.
    unfold applyMove.
    by rewrite (move_updater_over_earlier _ s sourceColumn pre movingPost
                  mid overPost suf).
Qed.

Lemma applyMove_same_column_witness :
  fixed_columns (layout_of [[mkPost 1; mkPost 2; mkPost 3; mkPost 4]; []; []; []])
  ∧ NoDup
      (layout_ids
         (layout_of [[mkPost 1; mkPost 2; mkPost 3; mkPost 4]; []; []; []]))
  ∧ applyMove
      (layout_of [[mkPost 1; mkPost 2; mkPost 3; mkPost 4]; []; []; []])
      (getPostId (mkPost 1)) (getPostId (mkPost 4))
    = Some (layout_of [[mkPost 2; mkPost 3; mkPost 1; mkPost 4]; []; []; []])
  ∧ applyMove
      (layout_of [[mkPost 1; mkPost 2; mkPost 3; mkPost 4]; []; []; []])
      (getPostId (mkPost 4)) (getPostId (mkPost 2))
    = Some (layout_of [[mkPost 1; mkPost 4; mkPost 2; mkPost 3]; []; []; []]).
Proof.
  assert (fixed_columns
            (layout_of [[mkPost 1; mkPost 2; mkPost 3; mkPost 4]; []; []; []]))
    as Hfixed by (vm_compute; reflexivity).
  assert (NoDup
            (layout_ids
               (layout_of
                  [[mkPost 1; mkPost 2; mkPost 3; mkPost 4]; []; []; []])))
    as Hnodup by (apply (bool_decide_unpack _); vm_compute; exact I).
  split_and!; [done..| |].
  - rewrite (proj1 applyMove_same_column _ 0
               (column_at 0 [mkPost 1; mkPost 2; mkPost 3; mkPost 4])
               [] (mkPost 1) [mkPost 2; mkPost 3] (mkPost 4) [] Hfixed Hnodup);
      vm_compute; reflexivity.
  - rewrite (proj2 applyMove_same_column _ 0
               (column_at 0 [mkPost 1; mkPost 2; mkPost 3; mkPost 4])
               [mkPost 1] (mkPost 4) [mkPost 3] (mkPost 2) [] Hfixed Hnodup);
      vm_compute; reflexivity.
Defined.

(** X15.  On a layout of the fixed columns in which no identifier occurs
    twice, dropping a post over the post right below it in its column
    changes nothing in the layout, yet the updater does not hand back the
    previous columns: it returns a fresh array with the same content. *)
Theorem move_over_successor prevColumns s sourceColumn
    pre movingPost overPost suf :
  fixed_columns prevColumns →
  NoDup (layout_ids prevColumns) →
  prevColumns !! s = Some sourceColumn →
  posts sourceColumn = pre ++ movingPost :: overPost :: suf →
  move_updater prevColumns (getPostId movingPost) (getPostId overPost)
  = Some (Replace prevColumns).
Proof.
  intros Hfixed Hnodup Hs Hposts.
  rewrite (move_updater_over_later _ s sourceColumn pre movingPost []
             overPost suf) by done.
  simpl. rewrite <-Hposts, with_posts_id. by rewrite list_insert_id.
Qed.

Lemma move_over_successor_witness :
  fixed_columns (layout_of [[mkPost 1; mkPost 2]; [mkPost 3]; []; []])
  ∧ NoDup (layout_ids (layout_of [[mkPost 1; mkPost 2]; [mkPost 3]; []; []]))
  ∧ move_updater (layout_of [[mkPost 1; mkPost 2]; [mkPost 3]; []; []])
      (getPostId (mkPost 1)) (getPostId (mkPost 2))
    = Some (Replace (layout_of [[mkPost 1; mkPost 2]; [mkPost 3]; []; []])).
Proof.
  assert (fixed_columns (layout_of [[mkPost 1; mkPost 2]; [mkPost 3]; []; []]))
    as Hfixed by (vm_compute; reflexivity).
  assert (NoDup
            (layout_ids (layout_of [[mkPost 1; mkPost 2]; [mkPost 3]; []; []])))
    as Hnodup by (apply (bool_decide_unpack _); vm_compute; exact I).
  split_and!; [done..|].
  apply (move_over_successor _ 0 (column_at 0 [mkPost 1; mkPost 2])
           [] (mkPost 1) (mkPost 2) [] Hfixed Hnodup);
    vm_compute; reflexivity.
Defined.

(** X16.  On a layout of the fixed columns in which no identifier occurs
    twice, a drop on the area of a column sends the dragged post to the end
    of that column: to the end of another column, which it joins, or to the
    end of its own column. *)
Theorem applyMove_on_column :
  (∀ prevColumns s t sourceColumn targetColumn pre movingPost suf,
     fixed_columns prevColumns →
     NoDup (layout_ids prevColumns) →
     s ≠ t →
     prevColumns !! s = Some sourceColumn →
     prevColumns !! t = Some targetColumn →
     posts sourceColumn = pre ++ movingPost :: suf →
     applyMove prevColumns (getPostId movingPost) (column_id targetColumn)
     = Some (<[t := with_posts targetColumn
                       (posts targetColumn ++ [movingPost])]>
               (<[s := with_posts sourceColumn (pre ++ suf)]> prevColumns)))
  ∧ (∀ prevColumns s sourceColumn pre movingPost suf,
       fixed_columns prevColumns →
       NoDup (layout_ids prevColumns) →
       prevColumns !! s = Some sourceColumn →
       posts sourceColumn = pre ++ movingPost :: suf →
       applyMove prevColumns (getPostId movingPost) (column_id sourceColumn)
       = Some (<[s := with_posts sourceColumn (pre ++ suf ++ [movingPost])]>
                 prevColumns)).
Proof.
  assert (∀ prevColumns s t sourceColumn targetColumn targetColumn'
            pre movingPost suf,
            fixed_columns prevColumns →
            NoDup (layout_ids prevColumns) →
            prevColumns !! s = Some sourceColumn →
            prevColumns !! t = Some targetColumn →
            posts sourceColumn = pre ++ movingPost :: suf →
            <[s := with_posts sourceColumn (pre ++ suf)]> prevColumns !! t
            = Some targetColumn' →
            column_id targetColumn' = column_id targetColumn →
            applyMove prevColumns (getPostId movingPost)
              (column_id targetColumn)
            = Some (<[t := with_posts targetColumn'
                              (posts targetColumn' ++ [movingPost])]>
                      (<[s := with_posts sourceColumn (pre ++ suf)]>
                         prevColumns))) as Hdrop.
  { intros prevColumns s t sourceColumn targetColumn targetColumn'
      pre movingPost suf Hfixed Hnodup Hs Ht Hposts Ht' Hid.
    pose proof (NoDup_column_ids _ _ _ Hnodup Hs) as Hcolumn.
    rewrite Hposts, fmap_app, fmap_cons in Hcolumn.
    apply NoDup_middle in Hcolumn as [Hpre _].
    assert (column_id targetColumn ∈ column_id <$> prevColumns) as Hin.
    { apply list_elem_of_fmap_2. by eapply list_elem_of_lookup_2. }
    apply (applyMove_not_found _ _ _ s t sourceColumn pre movingPost suf);
      try done.
    - apply sourceColumnIndex_NoDup with sourceColumn; [done..|].
      rewrite Hposts, fmap_app, fmap_cons. apply elem_of_app. right. by left.
    - by apply targetColumnIndex_column.
    - intros [_ Heq]. rewrite Heq in Hin.
      by apply (getPostId_not_column_id prevColumns movingPost).
    - intros (post & Heq & _)%list_elem_of_fmap. rewrite Heq in Hin.
      by apply (getPostId_not_column_id prevColumns post). }
  split.
  - intros prevColumns s t sourceColumn targetColumn pre movingPost suf
      Hfixed Hnodup Hne Hs Ht Hposts.
    apply (Hdrop _ s t sourceColumn targetColumn targetColumn); try done.
    by rewrite list_lookup_insert_ne.
  - intros prevColumns s sourceColumn pre movingPost suf
      Hfixed Hnodup Hs Hposts.
    rewrite (Hdrop _ s s sourceColumn sourceColumn
               (with_posts sourceColumn (pre ++ suf)) pre movingPost suf);
      try done.
    + simpl. by rewrite list_insert_insert_eq, <-(assoc_L (++)).
    + apply list_lookup_insert_eq. by eapply lookup_lt_Some.
Qed.

Lemma applyMove_on_column_witness :
  fixed_columns (layout_of [[mkPost 1; mkPost 2]; [mkPost 3]; []; []])
  ∧ NoDup (layout_ids (layout_of [[mkPost 1; mkPost 2]; [mkPost 3]; []; []]))
  ∧ 0 ≠ 1
  ∧ applyMove (layout_of [[mkPost 1; mkPost 2]; [mkPost 3]; []; []])
      (getPostId (mkPost 1)) (column_id (column_at 1 [mkPost 3]))
    = Some (layout_of [[mkPost 2]; [mkPost 3; mkPost 1]; []; []])
  ∧ applyMove (layout_of [[mkPost 1; mkPost 2]; [mkPost 3]; []; []])
      (getPostId (mkPost 1)) (column_id (column_at 0 [mkPost 1; mkPost 2]))
    = Some (layout_of [[mkPost 2; mkPost 1]; [mkPost 3]; []; []]).
Proof.
  assert (fixed_columns (layout_of [[mkPost 1; mkPost 2]; [mkPost 3]; []; []]))
    as Hfixed by (vm_compute; reflexivity).
  assert (NoDup
            (layout_ids (layout_of [[mkPost 1; mkPost 2]; [mkPost 3]; []; []])))
    as Hnodup by (apply (bool_decide_unpack _); vm_compute; exact I).
  split_and!; [done..| |].
  - rewrite (proj1 applyMove_on_column _ 0 1
               (column_at 0 [mkPost 1; mkPost 2]) (column_at 1 [mkPost 3])
               [] (mkPost 1) [mkPost 2] Hfixed Hnodup);
      try done; vm_compute; reflexivity.
  - rewrite (proj2 applyMove_on_column _ 0
               (column_at 0 [mkPost 1; mkPost 2])
               [] (mkPost 1) [mkPost 2] Hfixed Hnodup);
      vm_compute; reflexivity.
Defined.

(** ** Move application: dragging back *)

Lemma with_posts_with_posts column (l k : list WordPressPost) :
  with_posts (with_posts column l) k = with_posts column k.
Proof. done. Qed.

(** Wherever the dragged post is dropped in the target column, it is
    inserted somewhere among the posts of that column. *)
Lemma dropped_split (s t : nat) targetColumn overId movingPost :
  ∃ tpre tsuf,
    posts targetColumn = tpre ++ tsuf
    ∧ dropped s t targetColumn overId movingPost = tpre ++ movingPost :: tsuf.
Proof.
  unfold dropped. case_decide.
  - exists (posts targetColumn), []. by rewrite app_nil_r.
  - eexists _, _. split; [|done]. by rewrite take_drop.
Qed.

(** A drop on any target that resolves to another column. *)
Lemma applyMove_to_other_column prevColumns s t sourceColumn
    pre movingPost suf overId :
  NoDup (layout_ids prevColumns) →
  prevColumns !! s = Some sourceColumn →
  posts sourceColumn = pre ++ movingPost :: suf →
  targetColumnIndex prevColumns overId = Some t →
  s ≠ t →
  ∃ targetColumn tpre tsuf,
    prevColumns !! t = Some targetColumn
    ∧ posts targetColumn = tpre ++ tsuf
    ∧ applyMove prevColumns (getPostId movingPost) overId
      = Some (<[t := with_posts targetColumn (tpre ++ movingPost :: tsuf)]>
                (<[s := with_posts sourceColumn (pre ++ suf)]> prevColumns)).
Proof.
  intros Hnodup Hs Hposts Ht Hne.
  destruct (targetColumnIndex_Some _ _ _ Ht) as (targetColumn & Htarget & _).
  pose proof (NoDup_column_ids _ _ _ Hnodup Hs) as Hcolumn.
  rewrite Hposts, fmap_app, fmap_cons in Hcolumn.
  apply NoDup_middle in Hcolumn as [Hpre _].
  destruct (dropped_split s t targetColumn overId movingPost)
    as (tpre & tsuf & Hsplit & Hdropped).
  exists targetColumn, tpre, tsuf. split_and!; [done..|].
  unfold applyMove.
  rewrite (move_updater_Replace _ _ _ s t sourceColumn pre movingPost suf
             targetColumn); [by rewrite Hdropped| |done| |done..| ].
  - apply sourceColumnIndex_NoDup with sourceColumn; [done..|].
    rewrite Hposts, fmap_app, fmap_cons. apply elem_of_app. right. by left.
  - by intros [? _].
  - by rewrite list_lookup_insert_ne.
Qed.

(** A drop on the area of a column, the target column read after the
    removal. *)
Lemma applyMove_column_area prevColumns s t sourceColumn targetColumn
    targetColumn' pre movingPost suf :
  fixed_columns prevColumns →
  NoDup (layout_ids prevColumns) →
  prevColumns !! s = Some sourceColumn →
  prevColumns !! t = Some targetColumn →
  posts sourceColumn = pre ++ movingPost :: suf →
  <[s := with_posts sourceColumn (pre ++ suf)]> prevColumns !! t
  = Some targetColumn' →
  applyMove prevColumns (getPostId movingPost) (column_id targetColumn)
  = Some (<[t := with_posts targetColumn'
                    (posts targetColumn' ++ [movingPost])]>
            (<[s := with_posts sourceColumn (pre ++ suf)]> prevColumns)).
Proof.
  intros Hfixed Hnodup Hs Ht Hposts Ht'.
  pose proof (NoDup_column_ids _ _ _ Hnodup Hs) as Hcolumn.
  rewrite Hposts, fmap_app, fmap_cons in Hcolumn.
  apply NoDup_middle in Hcolumn as [Hpre _].
  assert (column_id targetColumn ∈ column_id <$> prevColumns) as Hin.
  { apply list_elem_of_fmap_2. by eapply list_elem_of_lookup_2. }
  apply (applyMove_not_found _ _ _ s t sourceColumn pre movingPost suf);
    try done.
  - apply sourceColumnIndex_NoDup with sourceColumn; [done..|].
    rewrite Hposts, fmap_app, fmap_cons. apply elem_of_app. right. by left.
  - by apply targetColumnIndex_column.
  - intros [_ Heq]. rewrite Heq in Hin.
    by apply (getPostId_not_column_id prevColumns movingPost).
  - intros (post & Heq & _)%list_elem_of_fmap. rewrite Heq in Hin.
    by apply (getPostId_not_column_id prevColumns post).
Qed.

(** Putting back the two columns a move has changed. *)
Lemma restore_columns prevColumns s t sourceColumn targetColumn
    (changedSource changedTarget : PostColumn) :
  s ≠ t →
  prevColumns !! s = Some sourceColumn →
  prevColumns !! t = Some targetColumn →
  <[s := sourceColumn]>
    (<[t := targetColumn]>
       (<[t := changedTarget]> (<[s := changedSource]> prevColumns)))
  = prevColumns.
Proof.
  intros Hne Hs Ht.
  rewrite list_insert_insert_eq.
  rewrite (list_insert_insert_ne _ t s) by done.
  rewrite list_insert_insert_eq.
  by rewrite (list_insert_id _ t), (list_insert_id _ s).
Qed.

(** X17.  On a layout of the fixed columns in which no identifier occurs
    twice, every move of a post to another column, whatever the drop target
    that resolves to that column (one of its posts or its area, the only
    target of an empty column), is undone by one drag: back over the post
    that used to follow it in its source column or, when it was the last
    post there, onto the area of its source column.  The two moves in
    sequence return the very layout they started from. *)
Theorem applyMove_undo :
  (∀ prevColumns s t sourceColumn pre movingPost nextPost suf overId,
     fixed_columns prevColumns →
     NoDup (layout_ids prevColumns) →
     prevColumns !! s = Some sourceColumn →
     posts sourceColumn = pre ++ movingPost :: nextPost :: suf →
     targetColumnIndex prevColumns overId = Some t →
     s ≠ t →
     ∃ columns' targetColumn',
       applyMove prevColumns (getPostId movingPost) overId = Some columns'
       ∧ columns' !! t = Some targetColumn'
       ∧ movingPost ∈ posts targetColumn'
       ∧ applyMove columns' (getPostId movingPost) (getPostId nextPost)
         = Some prevColumns)
  ∧ (∀ prevColumns s t sourceColumn pre movingPost overId,
       fixed_columns prevColumns →
       NoDup (layout_ids prevColumns) →
       prevColumns !! s = Some sourceColumn →
       posts sourceColumn = pre ++ [movingPost] →
       targetColumnIndex prevColumns overId = Some t →
       s ≠ t →
       ∃ columns' targetColumn',
         applyMove prevColumns (getPostId movingPost) overId = Some columns'
         ∧ columns' !! t = Some targetColumn'
         ∧ movingPost ∈ posts targetColumn'
         ∧ applyMove columns' (getPostId movingPost) (column_id sourceColumn)
           = Some prevColumns).
Proof.
  assert (∀ prevColumns s t sourceColumn pre movingPost suf overId,
            fixed_columns prevColumns →
            NoDup (layout_ids prevColumns) →
            prevColumns !! s = Some sourceColumn →
            posts sourceColumn = pre ++ movingPost :: suf →
            targetColumnIndex prevColumns overId = Some t →
            s ≠ t →
            ∃ targetColumn tpre tsuf columns',
              prevColumns !! t = Some targetColumn
              ∧ posts targetColumn = tpre ++ tsuf
              ∧ columns'
                = <[t := with_posts targetColumn
                            (tpre ++ movingPost :: tsuf)]>
                    (<[s := with_posts sourceColumn (pre ++ suf)]>
                       prevColumns)
              ∧ applyMove prevColumns (getPostId movingPost) overId
                = Some columns'
              ∧ fixed_columns columns'
              ∧ NoDup (layout_ids columns')
              ∧ columns' !! t
                = Some (with_posts targetColumn (tpre ++ movingPost :: tsuf))
              ∧ columns' !! s = Some (with_posts sourceColumn (pre ++ suf)))
    as Hfirst.
  { intros prevColumns s t sourceColumn pre movingPost suf overId
      Hfixed Hnodup Hs Hposts Ht Hne.
    destruct (applyMove_to_other_column _ s t sourceColumn pre movingPost suf
                overId Hnodup Hs Hposts Ht Hne)
      as (targetColumn & tpre & tsuf & Htarget & Hsplit & Hmove).
    destruct (applyMove_Some prevColumns (getPostId movingPost) overId)
      as (columns' & Hmove' & Hstructure & Hperm).
    rewrite Hmove in Hmove'. injection Hmove' as Hcolumns'.
    assert (s < length prevColumns) as Hs_lt by (by eapply lookup_lt_Some).
    assert (t < length prevColumns) as Ht_lt by (by eapply lookup_lt_Some).
    exists targetColumn, tpre, tsuf, columns'. split_and!; [done..| | | | |].
    - by rewrite Hmove, Hcolumns'.
    - by eapply fixed_columns_structure.
    - by rewrite (layout_ids_Permutation _ _ Hperm).
    - rewrite <-Hcolumns'. apply list_lookup_insert_eq.
      by rewrite length_insert.
    - rewrite <-Hcolumns', list_lookup_insert_ne by done.
      by apply list_lookup_insert_eq. }
  split.
  - intros prevColumns s t sourceColumn pre movingPost nextPost suf overId
      Hfixed Hnodup Hs Hposts Ht Hne.
    destruct (Hfirst _ s t sourceColumn pre movingPost (nextPost :: suf)
                overId Hfixed Hnodup Hs Hposts Ht Hne)
      as (targetColumn & tpre & tsuf & columns' & Htarget & Hsplit & Hcolumns'
          & Hmove & Hfixed' & Hnodup' & Ht' & Hs').
    exists columns', (with_posts targetColumn (tpre ++ movingPost :: tsuf)).
    split_and!; [done..| |].
    { simpl. apply elem_of_app. right. by left. }
    rewrite (applyMove_over_post_fixed columns' t s
               (with_posts targetColumn (tpre ++ movingPost :: tsuf))
               (with_posts sourceColumn (pre ++ nextPost :: suf))
               tpre movingPost tsuf pre nextPost suf); try done.
    f_equal. simpl. rewrite !with_posts_with_posts.
    rewrite <-Hposts, <-Hsplit, !with_posts_id, Hcolumns'.
    by apply restore_columns.
  - intros prevColumns s t sourceColumn pre movingPost overId
      Hfixed Hnodup Hs Hposts Ht Hne.
    destruct (Hfirst _ s t sourceColumn pre movingPost [] overId
                Hfixed Hnodup Hs Hposts Ht Hne)
      as (targetColumn & tpre & tsuf & columns' & Htarget & Hsplit & Hcolumns'
          & Hmove & Hfixed' & Hnodup' & Ht' & Hs').
    exists columns', (with_posts targetColumn (tpre ++ movingPost :: tsuf)).
    split_and!; [done..| |].
    { simpl. apply elem_of_app. right. by left. }
    pose proof (applyMove_column_area columns' t s
                  (with_posts targetColumn (tpre ++ movingPost :: tsuf))
                  (with_posts sourceColumn (pre ++ []))
                  (with_posts sourceColumn (pre ++ []))
                  tpre movingPost tsuf Hfixed' Hnodup' Ht' Hs' eq_refl)
      as Hback.
    change (column_id (with_posts sourceColumn (pre ++ [])))
      with (column_id sourceColumn) in Hback.
    rewrite Hback by (by rewrite list_lookup_insert_ne).
    f_equal. simpl. rewrite !with_posts_with_posts, app_nil_r.
    rewrite <-Hposts, <-Hsplit, !with_posts_id, Hcolumns'.
    by apply restore_columns.
Qed.

Lemma applyMove_undo_witness :
  fixed_columns (layout_of [[mkPost 1; mkPost 2; mkPost 3]; [mkPost 4]; []; []])
  ∧ NoDup
      (layout_ids
         (layout_of [[mkPost 1; mkPost 2; mkPost 3]; [mkPost 4]; []; []]))
  ∧ targetColumnIndex
      (layout_of [[mkPost 1; mkPost 2; mkPost 3]; [mkPost 4]; []; []])
      "column-2" = Some 2
  ∧ targetColumnIndex
      (layout_of [[mkPost 1; mkPost 2; mkPost 3]; [mkPost 4]; []; []])
      "4" = Some 1
  ∧ 0 ≠ 2 ∧ 0 ≠ 1
  ∧ (∃ columns',
       applyMove
         (layout_of [[mkPost 1; mkPost 2; mkPost 3]; [mkPost 4]; []; []])
         (getPostId (mkPost 2)) "column-2" = Some columns'
       ∧ applyMove columns' (getPostId (mkPost 2)) (getPostId (mkPost 3))
         = Some (layout_of
                   [[mkPost 1; mkPost 2; mkPost 3]; [mkPost 4]; []; []]))
  ∧ (∃ columns',
       applyMove
         (layout_of [[mkPost 1; mkPost 2; mkPost 3]; [mkPost 4]; []; []])
         (getPostId (mkPost 3)) "4" = Some columns'
       ∧ applyMove columns' (getPostId (mkPost 3))
           (column_id (column_at 0 [mkPost 1; mkPost 2; mkPost 3]))
         = Some (layout_of
                   [[mkPost 1; mkPost 2; mkPost 3]; [mkPost 4]; []; []])).
Proof.
  assert (fixed_columns
            (layout_of [[mkPost 1; mkPost 2; mkPost 3]; [mkPost 4]; []; []]))
    as Hfixed by (vm_compute; reflexivity).
  assert (NoDup
            (layout_ids
               (layout_of [[mkPost 1; mkPost 2; mkPost 3]; [mkPost 4]; []; []])))
    as Hnodup by (apply (bool_decide_unpack _); vm_compute; exact I).
  assert (targetColumnIndex
            (layout_of [[mkPost 1; mkPost 2; mkPost 3]; [mkPost 4]; []; []])
            "column-2" = Some 2) as Harea by (vm_compute; reflexivity).
  assert (targetColumnIndex
            (layout_of [[mkPost 1; mkPost 2; mkPost 3]; [mkPost 4]; []; []])
            "4" = Some 1) as Hover by (vm_compute; reflexivity).
  split_and!; [done..| |].
  - destruct (proj1 applyMove_undo _ 0 2
                (column_at 0 [mkPost 1; mkPost 2; mkPost 3])
                [mkPost 1] (mkPost 2) (mkPost 3) [] "column-2"
                Hfixed Hnodup eq_refl eq_refl Harea)
      as (columns' & targetColumn' & Hmove & _ & _ & Hback); [done|].
    by exists columns'.
  - destruct (proj2 applyMove_undo _ 0 1
                (column_at 0 [mkPost 1; mkPost 2; mkPost 3])
                [mkPost 1; mkPost 2] (mkPost 3) "4"
                Hfixed Hnodup eq_refl eq_refl Hover)
      as (columns' & targetColumn' & Hmove & _ & _ & Hback); [done|].
    by exists columns'.
Defined.

(** ** Identifiers handed to the drag library *)



(** ** A refetch after drags *)

(** X19.  Fetching the same list again does not undo the drags made since it
    was fetched first: after any earlier events, a fetched list and any
    number of drags, a second effect with that list leaves the state exactly
    as the drags left it. *)
Theorem run_refetch earlier data drags :
  Forall is_drag drags →
  ∃ columns,
    run (earlier ++ ItemsFetched (Some data) :: drags) createEmptyColumns
    = Some columns
    ∧ run ((earlier ++ ItemsFetched (Some data) :: drags)
           ++ [ItemsFetched (Some data)]) createEmptyColumns
      = Some columns.
Proof.
  intros Hdrags.
  destruct (run_fixed earlier createEmptyColumns) as (columns0 & Hrun0 & Hfixed0 & _);
    [done|].
  destruct (reconcile_is_Some columns0 data) as [columns1 Hrec];
    [by apply fixed_columns_ne_nil|].
  destruct (run_drags_existingIds drags columns1 Hdrags)
    as (columns & Hrun & Hids).
  assert (run (earlier ++ ItemsFetched (Some data) :: drags) createEmptyColumns
          = Some columns) as Hall.
  { unfold run in *. rewrite forEach_app, Hrun0. simpl. rewrite Hrec. simpl.
    exact Hrun. }
  exists columns. split; [done|].
  unfold run in *. rewrite forEach_app, Hall. simpl.
  rewrite reconcile_fixpoint; [done|]. intros x.
  rewrite <-elem_of_existingIds, <-elem_of_incomingIds, Hids.
  by rewrite (reconcile_existingIds _ _ _ Hrec).
Qed.

Lemma run_refetch_witness :
  Forall is_drag [DragEnd "1" (Some "column-3"); DragEnd "2" (Some "3")]
  ∧ ∃ columns,
      run ([] ++ ItemsFetched (Some (mkPost <$> [1; 2; 3]%Z))
              :: [DragEnd "1" (Some "column-3"); DragEnd "2" (Some "3")])
        createEmptyColumns = Some columns
      ∧ run (([] ++ ItemsFetched (Some (mkPost <$> [1; 2; 3]%Z))
                 :: [DragEnd "1" (Some "column-3"); DragEnd "2" (Some "3")])
             ++ [ItemsFetched (Some (mkPost <$> [1; 2; 3]%Z))])
          createEmptyColumns = Some columns.
Proof.
  assert (Forall is_drag [DragEnd "1" (Some "column-3"); DragEnd "2" (Some "3")])
    as Hdrags by (by repeat constructor).
  split; [exact Hdrags|]. by apply run_refetch.
Defined.
